(** * reachability_viz: a shallow embedding of the graph pipeline

    The development follows [reachability_viz.py]: the text scanner
    ([parse_source_text]), the edge classifier ([extract_status]), the
    bidirectional merger, the adjacency builder, the bounded breadth-first
    traversal ([bfs_levels]), the level partitioner ([split_levels]), the edge
    section of [generate_dot] and [resolve_start_node].

    Conventions of the embedding:
    - Python [int] is [Z]; node ids are [Z].
    - a Python [set] of ids is a [gset Z]; a [defaultdict(set)] read through
      [.get(u, set())] is a [gmap Z (gset Z)] read with [default ∅].
    - iterating a Python set visits every element once, in an order the
      program does not control; the order is the class [SetOrder] below.
    - an insertion-ordered [dict] whose iteration order is observed is an
      association list ([dict_set], [dict_get]).
    - text is [string] over 7-bit ASCII characters: [isspace], [\d],
      [upper] and [lower] are the ASCII ones, and the bound [int()] puts on
      the number of digits is left out.
    - a raised exception is the [None] result of the function. *)

From Stdlib Require Import Ascii.
From stdpp Require Import gmap strings list fin_maps sorting pretty.

Open Scope Z_scope.

(** ** Iteration order of a Python set *)

(** [for x in s] and [list(s)] enumerate a set without repetition.  Which
    enumeration is a property of the runtime, not of the program. *)
Class SetOrder := {
  set_iter : gset Z → list Z;
  set_iter_perm : ∀ X, set_iter X ≡ₚ elements X
}.

(** The enumeration of stdpp's [elements]. *)
#[local] Program Instance elements_order : SetOrder := {| set_iter := elements |}.
Next Obligation. done. Qed.

(** Ascending ids. *)
#[local] Program Instance sorted_order : SetOrder :=
  {| set_iter X := merge_sort Z.le (elements X) |}.
Next Obligation. intros X. apply merge_sort_Permutation. Qed.

(** Ascending hash-table slot [x mod 8]: the order in which CPython walks the
    8-slot table of a small set of small non-negative ints (an int hashes to
    itself, and without collision an element sits in slot [hash mod 8]). *)
Definition slot_le (x y : Z) : Prop := x `mod` 8 ≤ y `mod` 8.

#[local] Instance slot_le_dec : RelDecision slot_le.
Proof. intros x y. unfold slot_le. apply _. Defined.

#[local] Program Instance slot_order : SetOrder :=
  {| set_iter X := merge_sort slot_le (elements X) |}.
Next Obligation. intros X. apply merge_sort_Permutation. Qed.

(** ** [build_adjacency] *)

(** Status codes ['E'], ['S'], ['D'] returned by [extract_status]. *)
Inductive Status := Enabled | Suspended | Disabled.

#[local] Instance Status_eq_dec : EqDecision Status.
Proof. solve_decision. Defined.

(** An edge dict: keys ["src"], ["dst"], ["raw_label"], ["status"] and, once
    the merger has run, ["bidirectional"] ([None] while the key is absent). *)
Record Edge := mkEdge {
  src : Z;
  dst : Z;
  raw_label : string;
  status : Status;
  bidirectional : option bool
}.

(** [adj[k].add(v)] on a [defaultdict(set)]. *)
Definition adj_add (k v : Z) (adj : gmap Z (gset Z)) : gmap Z (gset Z) :=
  <[k := default ∅ (adj !! k) ∪ {[v]}]> adj.

Definition build_adjacency (edges : list Edge) : gmap Z (gset Z) * gmap Z (gset Z) :=
  foldl (λ '(out_adj, in_adj) e,
           (adj_add (src e) (dst e) out_adj, adj_add (dst e) (src e) in_adj))
        (∅, ∅) edges.

(** ** [bfs_levels] *)

(** The inner function [neighbors(u)]. *)
Definition neighbors (out_adj in_adj : gmap Z (gset Z)) (direction : string) (u : Z) : gset Z :=
  if decide (direction = "out") then default ∅ (out_adj !! u)
  else if decide (direction = "in") then default ∅ (in_adj !! u)
  else default ∅ (out_adj !! u) ∪ default ∅ (in_adj !! u).

(** One pass of [if v not in visited: visited.add(v); nxt.add(v)]. *)
Definition visit (acc : gset Z * gset Z) (v : Z) : gset Z * gset Z :=
  let '(visited, nxt) := acc in
  if decide (v ∈ visited) then (visited, nxt)
  else (visited ∪ {[v]}, nxt ∪ {[v]}).

(** The two nested [for] loops of one round, from [nxt = set()]. *)
Definition expand `{SetOrder} (nbrs : Z → gset Z) (frontier visited : gset Z)
  : gset Z * gset Z :=
  foldl (λ acc u, foldl visit acc (set_iter (nbrs u))) (visited, ∅) (set_iter frontier).

(** [for _ in range(depth)] with its [break]; [n] rounds are left. *)
Fixpoint bfs_loop `{SetOrder} (nbrs : Z → gset Z) (n : nat)
    (levels : list (gset Z)) (visited frontier : gset Z) : list (gset Z) * gset Z :=
  match n with
  | O => (levels, visited)
  | S n' =>
      let '(visited', nxt) := expand nbrs frontier visited in
      if decide (nxt = ∅) then (levels, visited')
      else bfs_loop nbrs n' (levels ++ [nxt]) visited' nxt
  end.

Definition bfs_levels `{SetOrder} (start depth : Z) (out_adj in_adj : gmap Z (gset Z))
    (direction : string) : list (gset Z) * gset Z :=
  let depth := if decide (depth < 0) then 0 else depth in
  bfs_loop (neighbors out_adj in_adj direction) (Z.to_nat depth)
           [ {[start]} ] {[start]} {[start]}.

(** ** [split_levels] *)

(** [range(0, stop, step)] for [stop = len(group) >= 0]; [step = 0] raises
    [ValueError]. *)
Definition py_range0 (stop step : Z) : option (list Z) :=
  if decide (step = 0) then None
  else if decide (step < 0) then Some []
  else Some ((λ j : nat, Z.of_nat j * step) <$> seq 0 (Z.to_nat ((stop + step - 1) `div` step))).

(** [group[i:i+m]] for [0 <= i] and [0 < m]. *)
Definition py_slice (group : list Z) (i m : Z) : list Z :=
  take (Z.to_nat m) (drop (Z.to_nat i) group).

(** State of the partitioner: [new_levels], [node_levels], [level_idx]. *)
Definition split_state : Type := list (gset Z) * gmap Z nat * nat.

(** [for nid in sub_group: node_levels[nid] = level_idx]. *)
Definition assign_level `{SetOrder} (sub_group : gset Z) (idx : nat)
    (node_levels : gmap Z nat) : gmap Z nat :=
  foldl (λ m nid, <[nid := idx]> m) node_levels (set_iter sub_group).

(** Body of [for i in range(0, len(group), max_per_level)]. *)
Definition split_chunk `{SetOrder} (group : list Z) (max_per_level : Z)
    (st : split_state) (i : Z) : split_state :=
  let '(new_levels, node_levels, level_idx) := st in
  let sub_group : gset Z := list_to_set (py_slice group i max_per_level) in
  (new_levels ++ [sub_group], assign_level sub_group level_idx node_levels, S level_idx).

(** Body of [for group in levels]. *)
Definition split_group `{SetOrder} (max_per_level : Z) (st : split_state)
    (group : gset Z) : option split_state :=
  let group := set_iter group in
  idxs ← py_range0 (Z.of_nat (length group)) max_per_level;
  Some (foldl (split_chunk group max_per_level) st idxs).

Fixpoint split_loop `{SetOrder} (max_per_level : Z) (st : split_state)
    (levels : list (gset Z)) : option split_state :=
  match levels with
  | [] => Some st
  | group :: rest =>
      st' ← split_group max_per_level st group;
      split_loop max_per_level st' rest
  end.

Definition split_levels `{SetOrder} (levels : list (gset Z)) (max_per_level : Z)
  : option (list (gset Z) * gmap Z nat) :=
  st ← split_loop max_per_level ([], ∅, O) levels;
  Some (st.1.1, st.1.2).

(** The map [level_index] built at the top of [generate_dot]. *)
Definition level_index_of `{SetOrder} (levels : list (gset Z)) : gmap Z nat :=
  (foldl (λ '(m, i) grp, (assign_level grp i m, S i)) (∅, O) levels).1.

(** ** Text primitives ([str] methods on ASCII text) *)

Definition dquote : ascii := "034"%char.
Definition backslash : ascii := "092"%char.

(** [c.isspace()]: tab to carriage return, the four separators, space. *)
Definition is_space (c : ascii) : bool :=
  let n := nat_of_ascii c in
  ((9 <=? n) && (n <=? 13) || (28 <=? n) && (n <=? 32))%nat.

(** The class [\d] on ASCII text. *)
Definition is_digit (c : ascii) : bool :=
  let n := nat_of_ascii c in ((48 <=? n) && (n <=? 57))%nat.

Definition digit_val (c : ascii) : Z := Z.of_nat (nat_of_ascii c) - 48.

Definition upper_char (c : ascii) : ascii :=
  let n := nat_of_ascii c in
  if ((97 <=? n) && (n <=? 122))%nat then ascii_of_nat (n - 32) else c.

Definition lower_char (c : ascii) : ascii :=
  let n := nat_of_ascii c in
  if ((65 <=? n) && (n <=? 90))%nat then ascii_of_nat (n + 32) else c.

Fixpoint map_string (f : ascii → ascii) (s : string) : string :=
  match s with
  | EmptyString => EmptyString
  | String c s' => String (f c) (map_string f s')
  end.

Definition upper : string → string := map_string upper_char.
Definition lower : string → string := map_string lower_char.

Fixpoint lstrip (s : string) : string :=
  match s with
  | EmptyString => EmptyString
  | String c s' => if is_space c then lstrip s' else s
  end.

Fixpoint rstrip (s : string) : string :=
  match s with
  | EmptyString => EmptyString
  | String c s' =>
      let r := rstrip s' in
      if is_space c && bool_decide (r = EmptyString) then EmptyString else String c r
  end.

(** [s.strip()]. *)
Definition strip (s : string) : string := rstrip (lstrip s).

(** [s.split(sep)] for a one-character separator. *)
Fixpoint split_on (sep : ascii) (s : string) : list string :=
  match s with
  | EmptyString => [EmptyString]
  | String c s' =>
      if decide (c = sep) then EmptyString :: split_on sep s'
      else match split_on sep s' with
           | p :: ps => String c p :: ps
           | [] => [String c EmptyString]
           end
  end.

(** [s.startswith(p)]. *)
Definition startswith (s p : string) : bool := String.prefix p s.

(** Longest prefix of characters satisfying [p], and the rest. *)
Fixpoint span (p : ascii → bool) (s : string) : string * string :=
  match s with
  | EmptyString => (EmptyString, EmptyString)
  | String c s' =>
      if p c then let '(a, b) := span p s' in (String c a, b)
      else (EmptyString, s)
  end.

(** The rest of [s] after the literal [p], when [s] starts with it. *)
Fixpoint strip_prefix (p s : string) : option string :=
  match p, s with
  | EmptyString, _ => Some s
  | String a p', String b s' => if decide (a = b) then strip_prefix p' s' else None
  | String _ _, EmptyString => None
  end.

(** Value of a run of decimal digits, most significant first. *)
Fixpoint digits_value (acc : Z) (s : string) : Z :=
  match s with
  | EmptyString => acc
  | String c s' => digits_value (acc * 10 + digit_val c) s'
  end.

(** Digits of an [int()] literal: single underscores between digits. *)
Fixpoint int_digits (acc : Z) (after_digit : bool) (s : string) : option Z :=
  match s with
  | EmptyString => if after_digit then Some acc else None
  | String c s' =>
      if is_digit c then int_digits (acc * 10 + digit_val c) true s'
      else if decide (c = "_"%char) then
             (if after_digit then int_digits acc false s' else None)
      else None
  end.

(** The blanks [int()] skips round an ASCII literal: tab to carriage return
    and space.  Unlike [str.strip], it does not skip the four separators
    0x1C to 0x1F. *)
Definition is_int_space (c : ascii) : bool :=
  let n := nat_of_ascii c in
  ((9 <=? n) && (n <=? 13) || (n =? 32))%nat.

Fixpoint int_lstrip (s : string) : string :=
  match s with
  | EmptyString => EmptyString
  | String c s' => if is_int_space c then int_lstrip s' else s
  end.

Fixpoint int_rstrip (s : string) : string :=
  match s with
  | EmptyString => EmptyString
  | String c s' =>
      let r := int_rstrip s' in
      if is_int_space c && bool_decide (r = EmptyString) then EmptyString else String c r
  end.

(** [int(s)]; [None] is [ValueError]. *)
Definition py_int (s : string) : option Z :=
  match int_rstrip (int_lstrip s) with
  | String "+" r => int_digits 0 false r
  | String "-" r => Z.opp <$> int_digits 0 false r
  | t => int_digits 0 false t
  end.

(** [text.replace(a, b)] for a one-character [a]. *)
Fixpoint replace_char (a : ascii) (b : string) (s : string) : string :=
  match s with
  | EmptyString => EmptyString
  | String c s' =>
      if decide (c = a) then b +:+ replace_char a b s'
      else String c (replace_char a b s')
  end.

Definition escape_label (text : string) : string :=
  replace_char dquote (String backslash (String dquote EmptyString))
    (replace_char backslash (String backslash (String backslash EmptyString)) text).

(** ** [extract_status] *)

Definition extract_status (raw_label : string) : Status :=
  if decide (raw_label = EmptyString) then Enabled
  else
    let parts := strip <$> split_on "|" raw_label in
    let first := match parts with p :: _ => upper p | [] => EmptyString end in
    if startswith first "S" then Suspended
    else if startswith first "D" then Disabled
    else if startswith first "E" then Enabled
    else Enabled.

(** ** Insertion-ordered dictionaries *)

Definition dict (V : Type) : Type := list (Z * V).

Fixpoint dict_get {V} (k : Z) (d : dict V) : option V :=
  match d with
  | [] => None
  | (k', v) :: d' => if decide (k = k') then Some v else dict_get k d'
  end.

(** [d[k] = v]: an existing key keeps its place, a new one goes last. *)
Fixpoint dict_set {V} (k : Z) (v : V) (d : dict V) : dict V :=
  match d with
  | [] => [(k, v)]
  | (k', v') :: d' =>
      if decide (k = k') then (k, v) :: d' else (k', v') :: dict_set k v d'
  end.

(** ** [parse_source_text] *)

(** [NODE_RE] matched at the head of [s]: the two groups and the text after
    the match.  Every quantifier of the pattern is followed by a character
    its class excludes, so the greedy match is the only one. *)
Definition match_node (s : string) : option (string * string * string) :=
  let '(ds, r1) := span is_digit s in
  if decide (ds = EmptyString) then None
  else
    let r2 := (span is_space r1).2 in
    r3 ← strip_prefix ("[label=" +:+ String dquote EmptyString) r2;
    let '(lbl, r4) := span (λ c, bool_decide (c ≠ dquote)) r3 in
    r5 ← strip_prefix (String dquote "]") r4;
    Some (ds, lbl, r5).

(** [EDGE_RE] matched at the head of [s]: the three groups and the rest. *)
Definition match_edge (s : string) : option (string * string * string * string) :=
  let '(ds, r1) := span is_digit s in
  if decide (ds = EmptyString) then None
  else
    let r2 := (span is_space r1).2 in
    r3 ← strip_prefix "->" r2;
    let r4 := (span is_space r3).2 in
    let '(dd, r5) := span is_digit r4 in
    if decide (dd = EmptyString) then None
    else
      let r6 := (span is_space r5).2 in
      r7 ← strip_prefix ("[label=" +:+ String dquote EmptyString) r6;
      let '(lbl, r8) := span (λ c, bool_decide (c ≠ dquote)) r7 in
      r9 ← strip_prefix (String dquote "]") r8;
      Some (ds, dd, lbl, r9).

(** [pattern.finditer(text)]: leftmost matches, none overlapping.  [skip] is
    the number of characters still covered by the previous match. *)
Fixpoint finditer {M} (try : string → option (M * string)) (skip : nat) (s : string)
  : list M :=
  match s with
  | EmptyString => []
  | String _ s' =>
      match skip with
      | S k => finditer try k s'
      | O =>
          match try s with
          | Some (m, rest) =>
              m :: finditer try (String.length s - String.length rest - 1)%nat s'
          | None => finditer try O s'
          end
      end
  end.

Definition node_matches (text : string) : list (string * string) :=
  finditer (λ s, match match_node s with
                 | Some (ds, lbl, rest) => Some ((ds, lbl), rest)
                 | None => None
                 end) O text.

Definition edge_matches (text : string) : list (string * string * string) :=
  finditer (λ s, match match_edge s with
                 | Some (ds, dd, lbl, rest) => Some ((ds, dd, lbl), rest)
                 | None => None
                 end) O text.

(** Body of the first loop; the state is [(nodes, original_nodes)]. *)
Definition add_node (st : dict string * dict string) (m : string * string)
  : dict string * dict string :=
  let '(nodes, original_nodes) := st in
  let nid := digits_value 0 m.1 in
  let label := strip m.2 in
  match dict_get nid nodes with
  | Some (String _ _) => (nodes, original_nodes)
  | _ => (dict_set nid label nodes, dict_set nid label original_nodes)
  end.

(** Body of the second loop. *)
Definition add_edge (edges : list Edge) (m : string * string * string) : list Edge :=
  let '(ds, dd, lbl) := m in
  let raw := strip lbl in
  edges ++ [mkEdge (digits_value 0 ds) (digits_value 0 dd) raw (extract_status raw) None].

Definition parse_source_text (source_text : string)
  : dict string * list Edge * dict string :=
  let '(nodes, original_nodes) := foldl add_node ([], []) (node_matches source_text) in
  let edges := foldl add_edge [] (edge_matches source_text) in
  (nodes, edges, original_nodes).

(** ** [merge_bidirectional_edges] *)

(** [tuple(sorted([s, d]))]. *)
Definition pair_key (e : Edge) : Z * Z := (Z.min (src e) (dst e), Z.max (src e) (dst e)).

Definition set_bidirectional (b : bool) (e : Edge) : Edge :=
  mkEdge (src e) (dst e) (raw_label e) (status e) (Some b).

(** Loop body.  [merged] and [seen] hold the same entry objects: [seen] maps
    a key to the position of its entry in [merged], and
    [other["bidirectional"] = True] updates the entry in place there. *)
Definition merge_step (st : list Edge * gmap (Z * Z) nat) (e : Edge)
  : list Edge * gmap (Z * Z) nat :=
  let '(merged, seen) := st in
  let key := pair_key e in
  match seen !! key with
  | Some other => (alter (set_bidirectional true) other merged, seen)
  | None => (merged ++ [set_bidirectional false e], <[key := length merged]> seen)
  end.

Definition merge_bidirectional_edges (edges : list Edge) : list Edge :=
  (foldl merge_step ([], ∅) edges).1.

(** ** [resolve_start_node] *)

(** [None] is the raised [ValueError]. *)
Definition resolve_start_node (start_value : string) (nodes original_nodes : dict string)
  : option Z :=
  match py_int start_value with
  | Some n => Some n
  | None =>
      fst <$> List.find (λ '(nid, label),
                 bool_decide (lower (strip label) = lower (strip start_value)))
              original_nodes
  end.

(** ** The edge loop of [generate_dot] *)

Record DotConfig := mkDotConfig {
  rankdir : string;
  edge_labels : string;
  use_ports : bool;
  level_edges_only : bool;
  deemphasize_cross : bool
}.

Definition ports_for_rankdir (rankdir : string) : string * string :=
  if bool_decide (rankdir = "LR") || bool_decide (rankdir = "RL") then
    (if bool_decide (rankdir = "LR") then ("e", "w") else ("w", "e"))
  else
    (if bool_decide (rankdir = "TB") then ("s", "n") else ("n", "s")).

(** [f'{name}="{value}"']. *)
Definition quoted (name value : string) : string :=
  name +:+ "=" +:+ String dquote value +:+ String dquote EmptyString.

(** [", ".join(attrs)]. *)
Fixpoint join_comma (attrs : list string) : string :=
  match attrs with
  | [] => EmptyString
  | [a] => a
  | a :: rest => a +:+ ", " +:+ join_comma rest
  end.

(** [delta]: [None] when either end has no level. *)
Definition edge_delta (level_index : gmap Z nat) (s d : Z) : option Z :=
  match level_index !! s, level_index !! d with
  | Some s_lvl, Some d_lvl => Some (Z.of_nat d_lvl - Z.of_nat s_lvl)
  | _, _ => None
  end.

(** The list [attrs] of one edge that is not skipped. *)
Definition edge_attrs (cfg : DotConfig) (delta : option Z) (e : Edge) : list string :=
  let '(base_color, base_style, base_width) :=
    match status e with
    | Enabled => ("#2e7d32", "solid", "1.8")
    | Suspended => ("#b71c1c", "dashed", "1.2")
    | Disabled => ("#666666", "dotted", "1.0")
    end in
  let relaxed :=
    match delta with
    | Some dl => deemphasize_cross cfg && bool_decide (Z.abs dl ≠ 1)
    | None => false
    end in
  let style :=
    if relaxed then
      ["constraint=false"; "style=dotted"; quoted "color" "#999999"; "penwidth=0.9"]
      ++ match delta with
         | Some dl => if bool_decide (Z.abs dl > 1)
                      then ["minlen=" +:+ pretty (Z.abs dl)] else []
         | None => []
         end
    else
      [quoted "color" base_color; quoted "style" base_style; quoted "penwidth" base_width] in
  let label :=
    if bool_decide (edge_labels cfg = "full")
    then [quoted "label" (escape_label (raw_label e))] else [] in
  let ports :=
    if use_ports cfg
    then let '(tailport, headport) := ports_for_rankdir (rankdir cfg) in
         ["tailport=" +:+ tailport; "headport=" +:+ headport]
    else [] in
  style ++ label ++ ports.

(** One iteration of [for e in edges]: [None] is [continue], otherwise the
    attribute list and the line appended to [lines]. *)
Definition render_edge (cfg : DotConfig) (included_nodes : gset Z)
    (level_index : gmap Z nat) (e : Edge) : option (list string * string) :=
  let s := src e in
  let d := dst e in
  if bool_decide (s ∉ included_nodes) || bool_decide (d ∉ included_nodes) then None
  else
    let delta := edge_delta level_index s d in
    if level_edges_only cfg &&
       match delta with
       | None => true
       | Some dl => bool_decide (Z.abs dl ≠ 1)
       end
    then None
    else
      let attrs := edge_attrs cfg delta e in
      Some (attrs,
            "  " +:+ pretty s +:+ " -> " +:+ pretty d +:+ " [" +:+ join_comma attrs +:+ "];").

(** The edge lines of [generate_dot], in order. *)
Definition dot_edges `{SetOrder} (cfg : DotConfig) (edges : list Edge)
    (included_nodes : gset Z) (levels : list (gset Z)) : list (list string * string) :=
  omap (render_edge cfg included_nodes (level_index_of levels)) edges.

(** ** The pipeline of [main] *)

Record Run := mkRun {
  run_start : Z;
  run_levels : list (gset Z);          (* the levels of [bfs_levels] *)
  run_included : gset Z;               (* the visited set *)
  run_edges : list Edge;               (* filtered and merged *)
  run_bands : list (gset Z);           (* the levels after [split_levels] *)
  run_node_levels : gmap Z nat;
  run_dot_edges : list (list string * string)
}.

(** From the parsed text to the data handed to the writers; [None] is the
    exit on a resolution error.  The cap of [main] is 20. *)
Definition run_pipeline `{SetOrder} (source_text start_arg : string) (depth : Z)
    (direction : string) (enabled_only : bool) (cfg : DotConfig) : option Run :=
  let '(nodes, edges, original_nodes) := parse_source_text source_text in
  let edges :=
    if enabled_only then List.filter (λ e, bool_decide (status e = Enabled)) edges
    else edges in
  start_node ← resolve_start_node start_arg nodes original_nodes;
  let '(out_adj, in_adj) := build_adjacency edges in
  let '(levels, included_nodes) := bfs_levels start_node depth out_adj in_adj direction in
  let filtered_edges :=
    List.filter (λ e, bool_decide (src e ∈ included_nodes) && bool_decide (dst e ∈ included_nodes))
                edges in
  let filtered_edges := merge_bidirectional_edges filtered_edges in
  '(bands, node_levels) ← split_levels levels 20;
  Some (mkRun start_node levels included_nodes filtered_edges bands node_levels
              (dot_edges cfg filtered_edges included_nodes bands)).

(** ** Paths and distances (specification side) *)

(** An edge usable under a direction, read off the adjacency maps. *)
Definition permitted (out_adj in_adj : gmap Z (gset Z)) (direction : string) (u v : Z) : Prop :=
  (direction = "out" ∧ v ∈ default ∅ (out_adj !! u)) ∨
  (direction = "in" ∧ v ∈ default ∅ (in_adj !! u)) ∨
  (direction = "both" ∧ (v ∈ default ∅ (out_adj !! u) ∨ v ∈ default ∅ (in_adj !! u))).

(** [path R n s v]: [v] is reached from [s] by exactly [n] edges of [R]. *)
Inductive path (R : Z → Z → Prop) (s : Z) : nat → Z → Prop :=
  | path_nil : path R s O s
  | path_snoc n u v : path R s n u → R u v → path R s (S n) v.

(** BFS distance exactly [k]: a path of [k] edges and none shorter. *)
Definition dist (R : Z → Z → Prop) (s : Z) (k : nat) (v : Z) : Prop :=
  path R s k v ∧ ∀ j, (j < k)%nat → ¬ path R s j v.

(** The neighbour function of a traversal seen as an edge relation. *)
Definition nbr_rel (nbrs : Z → gset Z) : Z → Z → Prop := λ u v, v ∈ nbrs u.

(** What the traversal loop maintains from start node [s]; [D] is the hop
    count explored so far. *)
Record bfs_inv (nbrs : Z → gset Z) (s : Z) (D : nat)
    (levels : list (gset Z)) (visited : gset Z) : Prop := {
  inv_start : levels !! O = Some {[s]};
  inv_sound : ∀ k L v, levels !! k = Some L → v ∈ L → path (nbr_rel nbrs) s k v;
  inv_complete : ∀ k v, (k ≤ D)%nat → path (nbr_rel nbrs) s k v →
                 ∃ j L, (j ≤ k)%nat ∧ levels !! j = Some L ∧ v ∈ L;
  inv_disjoint : ∀ (j k : nat) L L' v,
                 levels !! j = Some L → levels !! k = Some L' → v ∈ L → v ∈ L' → j = k;
  inv_visited : ∀ v, v ∈ visited ↔ ∃ (k : nat) L, levels !! k = Some L ∧ v ∈ L;
  inv_nonempty : ∀ (k : nat) L, levels !! k = Some L → L ≠ ∅
}.

(** The first [|]-delimited segment of a label, trimmed as [extract_status]
    trims it ([parts[0]]). *)
Definition first_segment (raw_label : string) : string :=
  strip (hd EmptyString (split_on "|" raw_label)).

(** Status selected by a leading character, in either case. *)
Definition classify_leading (c : ascii) : Status :=
  if bool_decide (c = "S"%char ∨ c = "s"%char) then Suspended
  else if bool_decide (c = "D"%char ∨ c = "d"%char) then Disabled
  else Enabled.

(** No [|] in a piece of text. *)
Fixpoint pipe_free (s : string) : bool :=
  match s with
  | EmptyString => true
  | String c s' => bool_decide (c ≠ "|"%char) && pipe_free s'
  end.

(** Length of [range(0, n, cap)] for a positive [cap]. *)
Definition chunk_count (cap : Z) (n : nat) : nat :=
  Z.to_nat ((Z.of_nat n + cap - 1) `div` cap).

(** The consecutive runs of [cap] elements of an enumeration [g]. *)
Definition slices (cap : Z) (g : list Z) : list (list Z) :=
  (λ j : nat, take (Z.to_nat cap) (drop (j * Z.to_nat cap) g))
    <$> seq 0 (chunk_count cap (length g)).

(** The bands of a list of levels: each level's runs, level after level. *)
Definition bands_of `{SetOrder} (cap : Z) (levels : list (gset Z)) : list (gset Z) :=
  concat ((λ L, list_to_set <$> slices cap (set_iter L)) <$> levels).

(** Appending one band to the partitioner's state. *)
Definition push_band `{SetOrder} (st : split_state) (B : gset Z) : split_state :=
  let '(new_levels, node_levels, level_idx) := st in
  (new_levels ++ [B], assign_level B level_idx node_levels, S level_idx).

(** ** Sample inputs *)

(** A star: node 0 with an edge to each of the nodes 1 to 21. *)
Definition star_edges : list Edge := (λ i, mkEdge 0 i EmptyString Enabled None) <$> seqZ 1 21.

(** The text [0 [label="Start"]; 1 [label="A"]; 2 [label="B"];
    0 -> 1 [label="E"]; 1 -> 2 [label="S|note"]; 2 -> 0 [label="D"]]. *)
Definition scenario_text : string :=
  let q := String dquote EmptyString in
  "0 [label=" +:+ q +:+ "Start" +:+ q +:+ "]; 1 [label=" +:+ q +:+ "A" +:+ q +:+
  "]; 2 [label=" +:+ q +:+ "B" +:+ q +:+ "]; 0 -> 1 [label=" +:+ q +:+ "E" +:+ q +:+
  "]; 1 -> 2 [label=" +:+ q +:+ "S|note" +:+ q +:+ "]; 2 -> 0 [label=" +:+ q +:+ "D" +:+ q +:+ "]".

(** Consecutive pieces of [cap] elements of a list of at most [fuel]
    elements. *)
Fixpoint chunks_of (fuel : nat) (cap : nat) (l : list Z) : list (list Z) :=
  match fuel, l with
  | O, _ | _, [] => []
  | S fuel', _ => take cap l :: chunks_of fuel' cap (drop cap l)
  end.

(** The partitioner as the specification words it: sort the level by id,
    then cut it into consecutive pieces of [cap]. *)
Definition sorted_chunks (cap : nat) (level : gset Z) : list (gset Z) :=
  let l := merge_sort Z.le (elements level) in
  list_to_set <$> chunks_of (length l) cap l.

(** ** The node and rank sections of [generate_dot] *)

(** [" ".join(parts)]. *)
Fixpoint join_space (parts : list string) : string :=
  match parts with
  | [] => EmptyString
  | [a] => a
  | a :: rest => a +:+ " " +:+ join_space rest
  end.

(** [sorted(group)] for a set of ids. *)
Definition sorted_ids (group : gset Z) : list Z := merge_sort Z.le (elements group).

(** The text [display] of a node: the id, then a backslash, the letter [n]
    and the name when the name is not empty. *)
Definition node_display (nodes : dict string) (nid : Z) : string :=
  match default EmptyString (dict_get nid nodes) with
  | EmptyString => pretty nid
  | name => pretty nid +:+ String backslash "n" +:+ name
  end.

(** One iteration of [for nid in sorted(included_nodes)]. *)
Definition node_line (nodes : dict string) (start nid : Z) : string :=
  let fill := if decide (nid = start) then "#fff3cd" else "#f0f4ff" in
  "  " +:+ pretty nid +:+ " [" +:+ quoted "label" (escape_label (node_display nodes nid))
  +:+ ", " +:+ quoted "fillcolor" fill +:+ "];".

Definition dot_node_lines (nodes : dict string) (included_nodes : gset Z) (start : Z)
  : list string :=
  node_line nodes start <$> sorted_ids included_nodes.

(** One iteration of [for lvl, group in enumerate(levels)]; [None] is
    [continue]. *)
Definition rank_line (lvl : nat) (group : gset Z) : option string :=
  if decide (group = ∅) then None
  else Some ("  { rank=same; /* level " +:+ pretty lvl +:+ " */ "
             +:+ join_space (pretty <$> sorted_ids group) +:+ "; }").

Fixpoint dot_rank_lines_from (lvl : nat) (levels : list (gset Z)) : list string :=
  match levels with
  | [] => []
  | group :: rest =>
      match rank_line lvl group with
      | Some line => line :: dot_rank_lines_from (S lvl) rest
      | None => dot_rank_lines_from (S lvl) rest
      end
  end.

Definition dot_rank_lines (levels : list (gset Z)) : list string :=
  dot_rank_lines_from O levels.

(** ** The edge and level data of [export_html] *)

(** An entry of [vis_edges]; the float literals of [width] are kept as
    written, [dashes] is [None] for [False]. *)
Record VisEdge := mkVisEdge {
  ve_id : nat;
  ve_from : Z;
  ve_to : Z;
  ve_status : Status;
  ve_arrows : string;
  ve_color : string;
  ve_width : string;
  ve_dashes : option (Z * Z)
}.

(** Body of [for e in edges]; the state is [(vis_edges, edge_id)]. *)
Definition vis_edge_step (included_nodes : gset Z) (st : list VisEdge * nat) (e : Edge)
  : list VisEdge * nat :=
  let '(vis_edges, edge_id) := st in
  if bool_decide (src e ∈ included_nodes) && bool_decide (dst e ∈ included_nodes) then
    let arrows_config :=
      if default false (bidirectional e) then "to,from" else "to" in
    let '(edge_color, edge_width, edge_dashes) :=
      match status e with
      | Enabled => ("#81c784", "0.6", None)
      | Suspended => ("#e57373", "0.5", Some (5, 5))
      | Disabled => ("#999999", "0.4", Some (2, 3))
      end in
    (vis_edges ++ [mkVisEdge edge_id (src e) (dst e) (status e) arrows_config
                             edge_color edge_width edge_dashes],
     S edge_id)
  else (vis_edges, edge_id).

Definition vis_edges (edges : list Edge) (included_nodes : gset Z) : list VisEdge :=
  (foldl (vis_edge_step included_nodes) ([], O) edges).1.

(** [node_data['level']]: the levels handed over are split again with cap
    30, and a node without an index gets 0. *)
Definition html_node_level `{SetOrder} (levels : list (gset Z)) (nid : Z) : option nat :=
  '(_, node_levels) ← split_levels levels 30;
  Some (default O (node_levels !! nid)).

(** ** Reference notions for the added properties *)

(** An edge turned round. *)
Definition reverse_edge (e : Edge) : Edge :=
  mkEdge (dst e) (src e) (raw_label e) (status e) (bidirectional e).

(** A reader of escaped text: a backslash stands for the character after
    it. *)
Fixpoint unescape (s : string) : string :=
  match s with
  | EmptyString => EmptyString
  | String c s' =>
      if decide (c = backslash) then
        match s' with
        | String d s'' => String d (unescape s'')
        | EmptyString => String c EmptyString
        end
      else String c (unescape s')
  end.

(** The label a list of node matches gives to [nid]: the first one that is
    not empty after trimming, the empty label when all are empty, none when
    [nid] is not matched. *)
Fixpoint first_label (nid : Z) (ms : list (string * string)) : option string :=
  match ms with
  | [] => None
  | m :: rest =>
      if decide (digits_value 0 m.1 = nid) then
        match strip m.2 with
        | EmptyString => Some (default EmptyString (first_label nid rest))
        | label => Some label
        end
      else first_label nid rest
  end.

(** All characters of a text satisfy [p]. *)
Fixpoint all_chars (p : ascii → bool) (s : string) : bool :=
  match s with
  | EmptyString => true
  | String c s' => p c && all_chars p s'
  end.

(** The text of one edge declaration: source digits, arrow, destination
    digits and a quoted label. *)
Definition label_part (l : string) : string :=
  " [label=" +:+ String dquote (l +:+ String dquote "]").

Definition edge_decl (a b l : string) : string :=
  a +:+ " -> " +:+ b +:+ label_part l.

(** * Proofs *)

(** ** Set iteration *)

Lemma elem_of_set_iter `{SetOrder} (X : gset Z) (x : Z) : x ∈ set_iter X ↔ x ∈ X.
Proof. rewrite (set_iter_perm X). apply elem_of_elements. Qed.

Lemma NoDup_set_iter `{SetOrder} (X : gset Z) : NoDup (set_iter X).
Proof. rewrite (set_iter_perm X). apply NoDup_elements. Qed.

Lemma length_set_iter `{SetOrder} (X : gset Z) : length (set_iter X) = size X.
Proof. by rewrite (set_iter_perm X). Qed.

Lemma list_to_set_set_iter `{SetOrder} (X : gset Z) : list_to_set (set_iter X) = X.
Proof. apply set_eq. intros x. by rewrite elem_of_list_to_set, elem_of_set_iter. Qed.

(** ** One round of the traversal *)

Lemma foldl_visit (l : list Z) (visited nxt : gset Z) :
  foldl visit (visited, nxt) l
  = (visited ∪ list_to_set l, nxt ∪ (list_to_set l ∖ visited)).
Proof.
  revert visited nxt. induction l as [|v l IH]; intros visited nxt; simpl.
  - f_equal; set_solver.
  - destruct (decide (v ∈ visited)) as [Hin|Hout].
    + rewrite IH. f_equal; set_solver.
    + rewrite IH. f_equal; [set_solver|].
      apply set_eq. intros x. destruct (decide (x = v)); set_solver.
Qed.

Lemma foldl_rounds `{SetOrder} (nbrs : Z → gset Z) (us : list Z) (visited nxt : gset Z) :
  foldl (λ acc u, foldl visit acc (set_iter (nbrs u))) (visited, nxt) us
  = (visited ∪ ⋃ (nbrs <$> us), nxt ∪ (⋃ (nbrs <$> us) ∖ visited)).
Proof.
  revert visited nxt. induction us as [|u us IH]; intros visited nxt; simpl.
  - f_equal; set_solver.
  - rewrite foldl_visit, IH, list_to_set_set_iter.
    f_equal; [set_solver|].
    apply set_eq. intros x. destruct (decide (x ∈ nbrs u)); set_solver.
Qed.

(** The round adds to [visited] exactly the unvisited neighbours of the
    frontier, and [nxt] is that set. *)
Lemma expand_spec `{SetOrder} (nbrs : Z → gset Z) (frontier visited : gset Z) :
  ∃ nxt, expand nbrs frontier visited = (visited ∪ nxt, nxt) ∧
         ∀ v, v ∈ nxt ↔ ((v ∉ visited) ∧ ∃ u, u ∈ frontier ∧ v ∈ nbrs u).
Proof.
  exists (⋃ (nbrs <$> set_iter frontier) ∖ visited). split.
  - unfold expand. rewrite foldl_rounds.
    generalize (⋃ (nbrs <$> set_iter frontier)). intros N.
    f_equal; apply set_eq; intros x; destruct (decide (x ∈ visited)); set_solver.
  - intros v. rewrite elem_of_difference, elem_of_union_list. split.
    + intros [(X & HX & Hv) Hnv]. split; [done|].
      apply list_elem_of_fmap in HX as (u & -> & Hu).
      exists u. by rewrite <- elem_of_set_iter.
    + intros [Hnv (u & Hu & Hv)]. split; [|done].
      exists (nbrs u). split; [|done].
      apply list_elem_of_fmap. exists u. by rewrite elem_of_set_iter.
Qed.

(** ** The traversal loop *)

Section bfs.
Context `{SetOrder} (nbrs : Z → gset Z) (s : Z).

Local Open Scope nat_scope.

Local Abbreviation nbr_rel := (nbr_rel nbrs).
Local Abbreviation bfs_inv := (bfs_inv nbrs s).

Lemma bfs_inv_init : bfs_inv 0 [ {[s]} ] {[s]}.
Proof.
  split.
  - done.
  - intros [|k] L v HL Hv; simplify_eq/=.
    apply elem_of_singleton in Hv as ->. constructor.
  - intros k v Hk Hp. assert (k = 0) as -> by lia.
    assert (v = s) as -> by (by inversion Hp). exists 0, {[s]}. split_and!; [lia|done|set_solver].
  - intros [|j] [|k] L L' v HL HL' _ _; by simplify_eq/=.
  - intros v. split.
    + intros Hv. exists 0, {[s]}. done.
    + intros ([|k] & L & HL & Hv); by simplify_eq/=.
  - intros [|k] L HL; simplify_eq/=. set_solver.
Qed.

Section round.
Context (i : nat) (levels : list (gset Z)) (visited frontier nxt : gset Z).
Hypothesis Hinv : bfs_inv i levels visited.
Hypothesis Hlen : length levels = S i.
Hypothesis Hfrontier : levels !! i = Some frontier.
Hypothesis Hnxt : ∀ v, v ∈ nxt ↔ ((v ∉ visited) ∧ ∃ u, u ∈ frontier ∧ v ∈ nbrs u).

(** A node one hop further is in an old level or in [nxt]. *)
Lemma round_closed k v :
  k ≤ S i → path nbr_rel s k v →
  (∃ j L, j ≤ k ∧ levels !! j = Some L ∧ v ∈ L) ∨ (k = S i ∧ v ∈ nxt).
Proof.
  intros Hk Hp. destruct (decide (k ≤ i)) as [Hle|Hgt].
  { left. by apply (inv_complete _ _ _ _ _ Hinv). }
  assert (k = S i) as -> by lia.
  inversion Hp as [|n u v' Hpu Huv]; subst.
  destruct (inv_complete _ _ _ _ _ Hinv _ _ (le_n i) Hpu) as (j & L & Hj & HL & Hu).
  destruct (decide (v ∈ visited)) as [Hv|Hv].
  { left. apply (inv_visited _ _ _ _ _ Hinv) in Hv as (j' & L' & HL' & Hv).
    exists j', L'. split_and!; [|done..].
    apply lookup_lt_Some in HL'. lia. }
  destruct (decide (j = i)) as [->|Hne].
  { right. split; [done|]. apply Hnxt. split; [done|].
    exists u. split; [congruence|done]. }
  exfalso. apply Hv. apply (inv_visited _ _ _ _ _ Hinv).
  assert (path nbr_rel s (S j) v) as Hpv.
  { econstructor; [|exact Huv]. by apply (inv_sound _ _ _ _ _ Hinv _ L). }
  destruct (inv_complete _ _ _ _ _ Hinv (S j) v ltac:(lia) Hpv) as (j' & L' & _ & HL' & Hv').
  by exists j', L'.
Qed.

(** The [break]: nothing new means nothing further at any distance. *)
Lemma round_stop D : nxt = ∅ → bfs_inv D levels (visited ∪ nxt).
Proof.
  intros Hempty.
  assert (∀ k v, path nbr_rel s k v →
            ∃ j L, j ≤ k ∧ levels !! j = Some L ∧ v ∈ L) as Hall.
  { intros k v Hp. induction Hp as [|n u v Hpu IH Huv].
    - exists 0, {[s]}. split_and!; [lia|apply (inv_start _ _ _ _ _ Hinv)|set_solver].
    - destruct IH as (j & L & Hj & HL & Hu).
      assert (j ≤ i) by (apply lookup_lt_Some in HL; lia).
      assert (path nbr_rel s (S j) v) as Hpv.
      { econstructor; [|exact Huv]. by apply (inv_sound _ _ _ _ _ Hinv _ L). }
      destruct (round_closed (S j) v ltac:(lia) Hpv)
        as [(j' & L' & Hj' & HL' & Hv)|[_ Hv]].
      + exists j', L'. split_and!; [lia|done..].
      + rewrite Hempty in Hv. set_solver. }
  rewrite Hempty, (right_id_L ∅ (∪)).
  destruct Hinv. split; eauto.
Qed.

(** The round that appends [nxt]. *)
Lemma round_extend : nxt ≠ ∅ → bfs_inv (S i) (levels ++ [nxt]) (visited ∪ nxt).
Proof.
  intros Hne. split.
  - apply lookup_app_l_Some, (inv_start _ _ _ _ _ Hinv).
  - intros k L v HL Hv. apply lookup_snoc_Some in HL as [[_ HL]|[-> <-]].
    + by apply (inv_sound _ _ _ _ _ Hinv _ L).
    + rewrite Hlen. apply Hnxt in Hv as [_ (u & Hu & Huv)].
      econstructor; [|exact Huv]. by apply (inv_sound _ _ _ _ _ Hinv _ frontier).
  - intros k v Hk Hp.
    destruct (round_closed k v Hk Hp) as [(j & L & Hj & HL & Hv)|[-> Hv]].
    + exists j, L. split_and!; [done| |done]. by apply lookup_app_l_Some.
    + exists (S i), nxt. split_and!; [done| |done].
      apply lookup_snoc_Some. right. by rewrite Hlen.
  - intros j k L L' v HL HL' Hv Hv'.
    apply lookup_snoc_Some in HL as [[Hj HL]|[-> <-]];
      apply lookup_snoc_Some in HL' as [[Hk HL']|[-> <-]].
    + by apply (inv_disjoint _ _ _ _ _ Hinv j k L L' v).
    + exfalso. apply Hnxt in Hv' as [Hv' _]. apply Hv'.
      apply (inv_visited _ _ _ _ _ Hinv). by exists j, L.
    + exfalso. apply Hnxt in Hv as [Hv _]. apply Hv.
      apply (inv_visited _ _ _ _ _ Hinv). by exists k, L'.
    + done.
  - intros v. rewrite elem_of_union, (inv_visited _ _ _ _ _ Hinv). split.
    + intros [(k & L & HL & Hv)|Hv].
      * exists k, L. split; [by apply lookup_app_l_Some|done].
      * exists (length levels), nxt. split; [|done].
        apply lookup_snoc_Some. by right.
    + intros (k & L & HL & Hv).
      apply lookup_snoc_Some in HL as [[_ HL]|[-> <-]]; [left|by right].
      by exists k, L.
  - intros k L HL. apply lookup_snoc_Some in HL as [[_ HL]|[-> <-]]; [|done].
    by apply (inv_nonempty _ _ _ _ _ Hinv k).
Qed.
End round.

(** The loop keeps the invariant and adds at most one level per round. *)
Lemma bfs_loop_inv n : ∀ i levels visited frontier,
  bfs_inv i levels visited → length levels = S i → levels !! i = Some frontier →
  bfs_inv (i + n) (bfs_loop nbrs n levels visited frontier).1
                  (bfs_loop nbrs n levels visited frontier).2 ∧
  length (bfs_loop nbrs n levels visited frontier).1 ≤ S (i + n).
Proof.
  induction n as [|n IH]; intros i levels visited frontier Hinv Hlen Hfr; simpl.
  { rewrite Nat.add_0_r. split; [done|lia]. }
  destruct (expand_spec nbrs frontier visited) as (nxt & -> & Hnxt).
  destruct (decide (nxt = ∅)) as [Hempty|Hne]; simpl.
  - split; [|lia]. by eapply round_stop.
  - replace (i + S n) with (S i + n) by lia.
    apply IH.
    + by eapply round_extend.
    + rewrite length_app, Hlen. simpl. lia.
    + apply lookup_snoc_Some. right. by rewrite Hlen.
Qed.

(** Levels are exactly the distance classes. *)
Lemma bfs_inv_dist D levels visited k L v :
  bfs_inv D levels visited → length levels ≤ S D →
  levels !! k = Some L → v ∈ L ↔ dist nbr_rel s k v.
Proof.
  intros Hinv Hlen HL. split.
  - intros Hv. split; [by apply (inv_sound _ _ _ _ _ Hinv _ L)|].
    intros j Hj Hp.
    destruct (inv_complete _ _ _ _ _ Hinv j v) as (j' & L' & Hj' & HL' & Hv'); [|done|].
    { apply lookup_lt_Some in HL. lia. }
    assert (j' = k) by by apply (inv_disjoint _ _ _ _ _ Hinv j' k L' L v). lia.
  - intros [Hp Hmin].
    destruct (inv_complete _ _ _ _ _ Hinv k v) as (j & L' & Hj & HL' & Hv'); [|done|].
    { apply lookup_lt_Some in HL. lia. }
    destruct (decide (j = k)) as [->|Hne]; [congruence|].
    exfalso. apply (Hmin j); [lia|]. by apply (inv_sound _ _ _ _ _ Hinv _ L').
Qed.

Lemma bfs_inv_dist_level D levels visited k v :
  bfs_inv D levels visited → k ≤ D → dist nbr_rel s k v →
  ∃ L, levels !! k = Some L ∧ v ∈ L.
Proof.
  intros Hinv Hk [Hp Hmin].
  destruct (inv_complete _ _ _ _ _ Hinv k v Hk Hp) as (j & L & Hj & HL & Hv).
  destruct (decide (j = k)) as [->|Hne]; [by exists L|].
  exfalso. apply (Hmin j); [lia|]. by apply (inv_sound _ _ _ _ _ Hinv _ L).
Qed.

(** The visited set is the set of nodes within the hop count. *)
Lemma bfs_inv_visited D levels visited v :
  bfs_inv D levels visited → length levels ≤ S D →
  v ∈ visited ↔ ∃ k, k ≤ D ∧ path nbr_rel s k v.
Proof.
  intros Hinv Hlen. rewrite (inv_visited _ _ _ _ _ Hinv). split.
  - intros (k & L & HL & Hv). exists k. split.
    + apply lookup_lt_Some in HL. lia.
    + by apply (inv_sound _ _ _ _ _ Hinv _ L).
  - intros (k & Hk & Hp).
    destruct (inv_complete _ _ _ _ _ Hinv k v Hk Hp) as (j & L & _ & HL & Hv).
    by exists j, L.
Qed.
End bfs.

(** ** [bfs_levels] *)

(** The hop count after clamping. *)
Lemma clamp_to_nat (depth : Z) :
  Z.to_nat (if decide (depth < 0) then 0 else depth) = Z.to_nat depth.
Proof. case_decide; lia. Qed.

Lemma bfs_levels_inv `{SetOrder} (start depth : Z) (out_adj in_adj : gmap Z (gset Z))
    (direction : string) :
  bfs_inv (neighbors out_adj in_adj direction) start (Z.to_nat depth)
          (bfs_levels start depth out_adj in_adj direction).1
          (bfs_levels start depth out_adj in_adj direction).2 ∧
  (length (bfs_levels start depth out_adj in_adj direction).1 ≤ S (Z.to_nat depth))%nat.
Proof.
  unfold bfs_levels. rewrite clamp_to_nat.
  apply (bfs_loop_inv _ start (Z.to_nat depth) O); [apply bfs_inv_init|done..].
Qed.

Lemma path_ext (R R' : Z → Z → Prop) (s : Z) (n : nat) (v : Z) :
  (∀ u w, R u w ↔ R' u w) → path R s n v ↔ path R' s n v.
Proof.
  intros HR. split; induction 1; econstructor; eauto; by apply HR.
Qed.

Lemma dist_ext (R R' : Z → Z → Prop) (s : Z) (k : nat) (v : Z) :
  (∀ u w, R u w ↔ R' u w) → dist R s k v ↔ dist R' s k v.
Proof.
  intros HR. unfold dist. rewrite (path_ext R R' s k v HR).
  split; intros [Hp Hmin]; (split; [done|]); intros j Hj Hq;
    apply (Hmin j Hj); by apply (path_ext R R' s j v HR).
Qed.

(** Under one of the three direction words, [neighbors] is the permitted
    edge relation. *)
Lemma neighbors_permitted (out_adj in_adj : gmap Z (gset Z)) (direction : string) (u v : Z) :
  direction ∈ ["out"; "in"; "both"] →
  nbr_rel (neighbors out_adj in_adj direction) u v ↔ permitted out_adj in_adj direction u v.
Proof.
  intros Hdir. unfold nbr_rel, neighbors, permitted.
  repeat (apply elem_of_cons in Hdir as [->|Hdir]); [| | |by apply elem_of_nil in Hdir];
    repeat case_decide; try done; rewrite ?elem_of_union; naive_solver.
Qed.

(** A node lies in at most one distance class. *)
Lemma dist_unique (R : Z → Z → Prop) (s : Z) (j k : nat) (v : Z) :
  dist R s j v → dist R s k v → j = k.
Proof.
  intros [Hpj Hmj] [Hpk Hmk].
  destruct (Nat.lt_trichotomy j k) as [Hlt|[Heq|Hgt]]; [|done|].
  - by destruct (Hmk j Hlt).
  - by destruct (Hmj k Hgt).
Qed.

(** C1. For a start node, a hop budget, a direction among out, in and both,
    and adjacency maps, the levels of [bfs_levels] are the distance classes:
    level 0 is [{start}]; every returned level [k] holds exactly the nodes at
    BFS distance [k] under the direction's edge relation, and a distance
    within the budget that has nodes has its level; the visited set is the
    union of the levels; no node is in two levels. *)
Theorem bfs_levels_distance_classes `{SetOrder} (start depth : Z)
    (out_adj in_adj : gmap Z (gset Z)) (direction : string) :
  direction ∈ ["out"; "in"; "both"] →
  let R := permitted out_adj in_adj direction in
  let levels := (bfs_levels start depth out_adj in_adj direction).1 in
  let visited := (bfs_levels start depth out_adj in_adj direction).2 in
  levels !! O = Some {[start]} ∧
  (∀ (k : nat) L, levels !! k = Some L → ∀ v, v ∈ L ↔ dist R start k v) ∧
  (∀ (k : nat) v, (k ≤ Z.to_nat depth)%nat → dist R start k v →
                  ∃ L, levels !! k = Some L ∧ v ∈ L) ∧
  visited = ⋃ levels ∧
  (∀ (j k : nat) L L' v,
     levels !! j = Some L → levels !! k = Some L' → v ∈ L → v ∈ L' → j = k).
Proof.
  intros Hdir R levels visited.
  destruct (bfs_levels_inv start depth out_adj in_adj direction) as [Hinv Hlen].
  fold levels visited in Hinv, Hlen.
  assert (∀ k v, dist (nbr_rel (neighbors out_adj in_adj direction)) start k v
                 ↔ dist R start k v) as Hd.
  { intros k v. apply dist_ext. intros u w. by apply neighbors_permitted. }
  split_and!.
  - apply (inv_start _ _ _ _ _ Hinv).
  - intros k L HL v. rewrite <- Hd. by eapply bfs_inv_dist.
  - intros k v Hk Hv. apply Hd in Hv. by eapply bfs_inv_dist_level.
  - apply set_eq. intros v. rewrite (inv_visited _ _ _ _ _ Hinv), elem_of_union_list.
    split.
    + intros (k & L & HL & Hv). exists L. split; [|done].
      by apply list_elem_of_lookup_2 in HL.
    + intros (L & HL & Hv). apply list_elem_of_lookup_1 in HL as [k HL]. by exists k, L.
  - apply (inv_disjoint _ _ _ _ _ Hinv).
Qed.

Lemma bfs_levels_distance_classes_witness :
  let levels := (bfs_levels (H:=elements_order) 0 1 {[0 := {[1]}]} {[1 := {[0]}]} "out").1 in
  levels !! O = Some {[0]} ∧
  ∀ (k : nat) L, levels !! k = Some L →
    ∀ v, v ∈ L ↔ dist (permitted {[0 := {[1]}]} {[1 := {[0]}]} "out") 0 k v.
Proof.
  intros levels.
  destruct (bfs_levels_distance_classes (H:=elements_order) 0 1
              {[0 := {[1]}]} {[1 := {[0]}]} "out") as (H0 & Hk & _).
  - set_solver.
  - split; [exact H0|exact Hk].
Defined.

(** C6. For a fixed start node, direction and adjacency data, and hop budgets
    [d1 ≤ d2], the visited set of budget [d1] is included in the visited set
    of budget [d2]. *)
Theorem bfs_visited_monotone `{SetOrder} (start d1 d2 : Z)
    (out_adj in_adj : gmap Z (gset Z)) (direction : string) :
  d1 ≤ d2 →
  (bfs_levels start d1 out_adj in_adj direction).2
  ⊆ (bfs_levels start d2 out_adj in_adj direction).2.
Proof.
  intros Hle v.
  destruct (bfs_levels_inv start d1 out_adj in_adj direction) as [Hinv1 Hlen1].
  destruct (bfs_levels_inv start d2 out_adj in_adj direction) as [Hinv2 Hlen2].
  rewrite (bfs_inv_visited _ _ _ _ _ v Hinv1 Hlen1).
  rewrite (bfs_inv_visited _ _ _ _ _ v Hinv2 Hlen2).
  intros (k & Hk & Hp). exists k. split; [lia|done].
Qed.

Lemma bfs_visited_monotone_witness :
  (bfs_levels (H:=elements_order) 0 1 {[0 := {[1]}; 1 := {[2]}]} ∅ "out").2
  ⊆ (bfs_levels (H:=elements_order) 0 2 {[0 := {[1]}; 1 := {[2]}]} ∅ "out").2.
Proof. apply (bfs_visited_monotone (H:=elements_order) 0 1 2). lia. Defined.

(** C10. Every level returned by [bfs_levels] is non-empty, and there are at
    most (clamped hop budget + 1) levels. *)
Theorem bfs_levels_nonempty_bounded `{SetOrder} (start depth : Z)
    (out_adj in_adj : gmap Z (gset Z)) (direction : string) :
  let levels := (bfs_levels start depth out_adj in_adj direction).1 in
  Forall (λ L, L ≠ ∅) levels ∧
  Z.of_nat (length levels) ≤ Z.max depth 0 + 1.
Proof.
  intros levels.
  destruct (bfs_levels_inv start depth out_adj in_adj direction) as [Hinv Hlen].
  fold levels in Hinv, Hlen. split; [|lia].
  apply Forall_lookup. intros k L HL. by apply (inv_nonempty _ _ _ _ _ Hinv k).
Qed.

(** ** [merge_bidirectional_edges] *)

Lemma pair_key_set_bidirectional (b : bool) (e : Edge) :
  pair_key (set_bidirectional b e) = pair_key e.
Proof. done. Qed.

Lemma set_bidirectional_twice (b b' : bool) (e : Edge) :
  set_bidirectional b (set_bidirectional b' e) = set_bidirectional b e.
Proof. done. Qed.

(** Opposite or equal orientation is the same unordered pair. *)
Lemma pair_key_eq (e1 e2 : Edge) :
  pair_key e1 = pair_key e2 ↔
  (src e1 = src e2 ∧ dst e1 = dst e2) ∨ (src e1 = dst e2 ∧ dst e1 = src e2).
Proof. unfold pair_key. split; [intros [= Hmin Hmax]|intros Hor; f_equal]; lia. Qed.

(** State of the merger after a prefix [edges]: [seen] indexes [merged] by
    pair, and every entry is the first edge of its pair, flagged exactly when
    the pair came up again. *)
Lemma merge_fold_inv (edges : list Edge) :
  let st := foldl merge_step ([], ∅) edges in
  (∀ k i, st.2 !! k = Some i → ∃ m, st.1 !! i = Some m ∧ pair_key m = k) ∧
  (∀ i m, st.1 !! i = Some m →
     st.2 !! pair_key m = Some i ∧
     ∃ l1 e l2, edges = l1 ++ e :: l2 ∧ (pair_key e ∉ pair_key <$> l1) ∧
                m = set_bidirectional (bool_decide (pair_key e ∈ pair_key <$> l2)) e) ∧
  (∀ e, e ∈ edges → is_Some (st.2 !! pair_key e)).
Proof.
  induction edges as [|e edges IH] using rev_ind; simpl.
  { split_and!; [intros k i Hk|intros i m Hm|intros e He]; set_solver. }
  rewrite foldl_app. simpl.
  destruct (foldl merge_step ([], ∅) edges) as [merged seen] eqn:Hst.
  simpl in IH. destruct IH as (Hseen & Hmerged & Hcov).
  unfold merge_step. destruct (seen !! pair_key e) as [other|] eqn:Hlook; simpl.
  - destruct (Hseen _ _ Hlook) as (mo & Hmo & Hko).
    split_and!.
    + intros k i Hk. destruct (Hseen _ _ Hk) as (m & Hm & Hkm).
      destruct (decide (other = i)) as [->|Hne].
      * exists (set_bidirectional true m).
        split; [by rewrite list_lookup_alter_eq, Hm|].
        by rewrite pair_key_set_bidirectional.
      * exists m. split; [by rewrite list_lookup_alter_ne|done].
    + intros i m Hm. destruct (decide (other = i)) as [->|Hne].
      * rewrite list_lookup_alter_eq, Hmo in Hm. simpl in Hm. injection Hm as <-.
        destruct (Hmerged _ _ Hmo) as (Hs & l1 & e0 & l2 & Hed & Hfirst & Hm0).
        rewrite pair_key_set_bidirectional. split; [done|].
        exists l1, e0, (l2 ++ [e]).
        split_and!; [by rewrite Hed, <- app_assoc|done|].
        rewrite Hm0, set_bidirectional_twice. f_equal. symmetry.
        apply bool_decide_eq_true_2.
        rewrite fmap_app, elem_of_app. right. simpl.
        assert (pair_key e0 = pair_key e) as -> by (by rewrite <- Hko, Hm0).
        apply list_elem_of_singleton. done.
      * rewrite list_lookup_alter_ne in Hm by done.
        destruct (Hmerged _ _ Hm) as (Hs & l1 & e0 & l2 & -> & Hfirst & ->).
        split; [done|]. exists l1, e0, (l2 ++ [e]).
        split_and!; [by rewrite <- app_assoc|done|].
        f_equal. apply bool_decide_ext.
        rewrite fmap_app, elem_of_app. simpl.
        split; [by left|]. intros [?|Hin]; [done|].
        apply list_elem_of_singleton in Hin.
        rewrite pair_key_set_bidirectional, Hin in Hs. congruence.
    + intros e' He'. apply elem_of_app in He' as [He'|He'].
      * by apply Hcov.
      * apply list_elem_of_singleton in He' as ->. by rewrite Hlook.
  - split_and!.
    + intros k i Hk. destruct (decide (pair_key e = k)) as [<-|Hne].
      * rewrite lookup_insert_eq in Hk. simplify_eq.
        exists (set_bidirectional false e). split; [|done].
        apply lookup_snoc_Some. by right.
      * rewrite lookup_insert_ne in Hk by done.
        destruct (Hseen _ _ Hk) as (m & Hm & Hkm).
        exists m. split; [by apply lookup_app_l_Some|done].
    + intros i m Hm. apply lookup_snoc_Some in Hm as [[_ Hm]|[-> <-]].
      * destruct (Hmerged _ _ Hm) as (Hs & l1 & e0 & l2 & -> & Hfirst & ->).
        assert (pair_key e ≠ pair_key e0) as Hne.
        { intros Heq. rewrite pair_key_set_bidirectional, <- Heq in Hs. congruence. }
        split; [by rewrite lookup_insert_ne|].
        exists l1, e0, (l2 ++ [e]).
        split_and!; [by rewrite <- app_assoc|done|].
        f_equal. apply bool_decide_ext.
        rewrite fmap_app, elem_of_app. simpl.
        split; [by left|]. intros [?|Hin]; [done|].
        apply list_elem_of_singleton in Hin. congruence.
      * split; [by rewrite pair_key_set_bidirectional, lookup_insert_eq|].
        exists edges, e, []. split_and!; [done| |done].
        intros Hin. apply list_elem_of_fmap in Hin as (e' & Hk & He').
        destruct (Hcov _ He') as [i Hi]. congruence.
    + intros e' He'. apply elem_of_app in He' as [He'|He'].
      * destruct (decide (pair_key e = pair_key e')) as [<-|Hne].
        -- rewrite lookup_insert_eq. by eexists.
        -- rewrite lookup_insert_ne by done. by apply Hcov.
      * apply list_elem_of_singleton in He' as ->. rewrite lookup_insert_eq. by eexists.
Qed.

Lemma lookup_middle_cases {A} (l1 l2 : list A) (x y : A) (i : nat) :
  (l1 ++ x :: l2) !! i = Some y →
  y ∈ l1 ∨ (i = length l1 ∧ y = x) ∨ ((length l1 < i)%nat ∧ y ∈ l2).
Proof.
  intros Hi. apply lookup_app_Some in Hi as [Hi|[Hge Hi]].
  - left. by apply list_elem_of_lookup_2 in Hi.
  - destruct (i - length l1)%nat as [|n] eqn:Hn; simpl in Hi.
    + right; left. split; [lia|congruence].
    + right; right. split; [lia|]. by apply list_elem_of_lookup_2 in Hi.
Qed.

(** C2. The merged list has every unordered pair of the input exactly once;
    the record kept for a pair is the first edge met for it, with its own
    source, destination, raw label and status; it is flagged when two edges
    of opposite directions exist between the pair; a pair met once stays
    unflagged. *)
Theorem merge_bidirectional_edges_pairs (edges : list Edge) :
  let merged := merge_bidirectional_edges edges in
  NoDup (pair_key <$> merged) ∧
  (∀ e, e ∈ edges → pair_key e ∈ pair_key <$> merged) ∧
  (∀ m, m ∈ merged →
     ∃ l1 e l2, edges = l1 ++ e :: l2 ∧ (pair_key e ∉ pair_key <$> l1) ∧
       src m = src e ∧ dst m = dst e ∧ raw_label m = raw_label e ∧
       status m = status e ∧
       bidirectional m = Some (bool_decide (pair_key e ∈ pair_key <$> l2))) ∧
  (∀ (i j : nat) e1 e2 m,
     i ≠ j → edges !! i = Some e1 → edges !! j = Some e2 →
     src e1 = dst e2 → dst e1 = src e2 →
     m ∈ merged → pair_key m = pair_key e1 → bidirectional m = Some true) ∧
  (∀ (i : nat) e m,
     edges !! i = Some e →
     (∀ (j : nat) e', edges !! j = Some e' → pair_key e' = pair_key e → j = i) →
     m ∈ merged → pair_key m = pair_key e →
     m = set_bidirectional false e).
Proof.
  intros merged. unfold merge_bidirectional_edges in merged.
  destruct (merge_fold_inv edges) as (Hseen & Hmerged & Hcov).
  fold merged in Hseen, Hmerged. split_and!.
  - apply NoDup_alt. intros i j k Hi Hj.
    apply list_lookup_fmap_Some in Hi as (mi & -> & Hi).
    apply list_lookup_fmap_Some in Hj as (mj & Hk & Hj).
    destruct (Hmerged _ _ Hi) as [Hsi _]. destruct (Hmerged _ _ Hj) as [Hsj _].
    rewrite <- Hk in Hsj. congruence.
  - intros e He. destruct (Hcov _ He) as [i Hi].
    destruct (Hseen _ _ Hi) as (m & Hm & <-).
    apply list_elem_of_fmap_2. by apply list_elem_of_lookup_2 in Hm.
  - intros m Hm. apply list_elem_of_lookup_1 in Hm as [i Hm].
    destruct (Hmerged _ _ Hm) as (_ & l1 & e & l2 & Hed & Hfirst & ->).
    exists l1, e, l2. by split_and!.
  - intros i j e1 e2 m Hij Hi Hj Hsd Hds Hm Hk.
    apply list_elem_of_lookup_1 in Hm as [p Hm].
    destruct (Hmerged _ _ Hm) as (_ & l1 & e & l2 & Hed & Hfirst & ->).
    rewrite pair_key_set_bidirectional in Hk.
    assert (pair_key e2 = pair_key e1) as Hk2 by (apply pair_key_eq; right; done).
    simpl. f_equal. apply bool_decide_eq_true_2.
    rewrite Hed in Hi, Hj.
    apply lookup_middle_cases in Hi as [Hi|[[Hi _]|[_ Hi]]];
      [exfalso; apply Hfirst; rewrite Hk; by apply list_elem_of_fmap_2 | |
       rewrite Hk; by apply list_elem_of_fmap_2].
    apply lookup_middle_cases in Hj as [Hj|[[Hj _]|[_ Hj]]];
      [exfalso; apply Hfirst; rewrite Hk, <- Hk2; by apply list_elem_of_fmap_2 | lia |
       rewrite Hk, <- Hk2; by apply list_elem_of_fmap_2].
  - intros i e m Hi Honly Hm Hk.
    apply list_elem_of_lookup_1 in Hm as [p Hm].
    destruct (Hmerged _ _ Hm) as (_ & l1 & e0 & l2 & Hed & Hfirst & ->).
    rewrite pair_key_set_bidirectional in Hk.
    assert (length l1 = i) as Hpos.
    { apply (Honly (length l1) e0); [|done]. rewrite Hed. by apply list_lookup_middle. }
    assert (e0 = e) as ->.
    { rewrite Hed, <- Hpos, list_lookup_middle in Hi by done. congruence. }
    f_equal. apply bool_decide_eq_false_2. intros Hin.
    apply list_elem_of_fmap in Hin as (e' & Hk' & He').
    apply list_elem_of_lookup_1 in He' as [q Hq].
    assert ((S (length l1 + q))%nat = i); [|lia].
    apply (Honly _ e'); [|done]. rewrite Hed.
    rewrite lookup_app_r by lia.
    replace (S (length l1 + q) - length l1)%nat with (S q) by lia. done.
Qed.

(** ** [extract_status] *)

Lemma upper_char_is (c : ascii) (t : ascii) :
  (65 ≤ nat_of_ascii t ≤ 90)%nat →
  upper_char c = t ↔ c = t ∨ nat_of_ascii c = (nat_of_ascii t + 32)%nat.
Proof.
  intros Ht. unfold upper_char.
  destruct (_ && _) eqn:Hc.
  - apply andb_prop in Hc as [H1 H2].
    apply Nat.leb_le in H1, H2. split.
    + intros <-. right. rewrite nat_ascii_embedding; lia.
    + intros [->|Hn]; [lia|].
      rewrite Hn. replace (nat_of_ascii t + 32 - 32)%nat with (nat_of_ascii t) by lia.
      apply ascii_nat_embedding.
  - split; [by left|]. intros [?|Hn]; [done|].
    apply andb_false_iff in Hc as [Hc|Hc]; apply Nat.leb_gt in Hc; lia.
Qed.

Lemma nat_of_ascii_inj (c d : ascii) : nat_of_ascii c = nat_of_ascii d → c = d.
Proof. intros Heq. by rewrite <- (ascii_nat_embedding c), Heq, ascii_nat_embedding. Qed.

Lemma startswith_char (c t : ascii) (r : string) :
  startswith (String c r) (String t EmptyString) = bool_decide (c = t).
Proof.
  unfold startswith. simpl. destruct (ascii_dec t c) as [->|Hne].
  - rewrite bool_decide_eq_true_2 by done. by destruct r.
  - by rewrite bool_decide_eq_false_2.
Qed.

(** [extract_status] reads the leading character of the trimmed first
    segment and nothing else. *)
Lemma extract_status_leading (raw_label : string) :
  extract_status raw_label =
  match first_segment raw_label with
  | EmptyString => Enabled
  | String c _ => classify_leading c
  end.
Proof.
  unfold extract_status, first_segment. case_decide as Hraw; [by subst|].
  destruct (split_on "|" raw_label) as [|p ps]; [done|].
  cbn [fmap list_fmap hd].
  destruct (strip p) as [|c r]; [done|].
  change (upper (String c r)) with (String (upper_char c) (upper r)).
  rewrite !startswith_char. unfold classify_leading.
  assert (upper_char c = "S"%char ↔ c = "S"%char ∨ c = "s"%char) as HS.
  { rewrite (upper_char_is c "S") by (vm_compute; lia).
    split; (intros [?|Hn]; [by left|right]); [by apply nat_of_ascii_inj|by subst]. }
  assert (upper_char c = "D"%char ↔ c = "D"%char ∨ c = "d"%char) as HD.
  { rewrite (upper_char_is c "D") by (vm_compute; lia).
    split; (intros [?|Hn]; [by left|right]); [by apply nat_of_ascii_inj|by subst]. }
  rewrite (bool_decide_ext _ _ HS), (bool_decide_ext _ _ HD).
  repeat case_bool_decide; done.
Qed.

Lemma split_on_pipe_free (seg : string) :
  pipe_free seg = true → split_on "|" seg = [seg].
Proof.
  induction seg as [|c seg IH]; [done|]. simpl.
  intros [Hc Hseg]%andb_prop. apply bool_decide_eq_true in Hc.
  rewrite decide_False by done. by rewrite IH.
Qed.

Lemma split_on_first (seg rest : string) :
  pipe_free seg = true →
  split_on "|" (seg +:+ String "|" rest) = seg :: split_on "|" rest.
Proof.
  induction seg as [|c seg IH]; [done|]. simpl.
  intros [Hc Hseg]%andb_prop. apply bool_decide_eq_true in Hc.
  rewrite decide_False by done. by rewrite IH.
Qed.

(** A label whose first character is neither blank nor [|] has that
    character at the head of its first segment. *)
Lemma first_segment_leading (c : ascii) (rest : string) :
  is_space c = false → c ≠ "|"%char →
  ∃ r, first_segment (String c rest) = String c r.
Proof.
  intros Hsp Hpipe. unfold first_segment. simpl.
  rewrite decide_False by done.
  destruct (split_on "|" rest) as [|p ps]; simpl.
  - exists EmptyString. unfold strip. simpl. rewrite Hsp. simpl. by rewrite Hsp.
  - exists (rstrip p). unfold strip. simpl. rewrite Hsp. simpl. by rewrite Hsp.
Qed.

(** C7. The status is a function of the label's first [|]-delimited segment
    and of the case-folded leading character of that segment: the empty
    label is Enabled, [S|x] Suspended, [D] Disabled, [s-foo] Suspended, [X]
    and every other leading character Enabled; what follows the first [|]
    never changes the result. *)
Theorem extract_status_first_segment :
  extract_status "" = Enabled ∧
  extract_status "S|x" = Suspended ∧
  extract_status "D" = Disabled ∧
  extract_status "s-foo" = Suspended ∧
  extract_status "X" = Enabled ∧
  (∀ raw raw', first_segment raw = first_segment raw' →
               extract_status raw = extract_status raw') ∧
  (∀ raw c r, first_segment raw = String c r →
     extract_status raw =
       if bool_decide (c = "S"%char ∨ c = "s"%char) then Suspended
       else if bool_decide (c = "D"%char ∨ c = "d"%char) then Disabled
       else Enabled) ∧
  (∀ raw, first_segment raw = EmptyString → extract_status raw = Enabled) ∧
  (∀ c rest, is_space c = false → c ≠ "|"%char →
     extract_status (String c rest) =
       if bool_decide (c = "S"%char ∨ c = "s"%char) then Suspended
       else if bool_decide (c = "D"%char ∨ c = "d"%char) then Disabled
       else Enabled) ∧
  (∀ seg rest, pipe_free seg = true →
     extract_status (seg +:+ String "|" rest) = extract_status seg).
Proof.
  split_and!; try done.
  - intros raw raw' Heq. by rewrite !extract_status_leading, Heq.
  - intros raw c r Heq. by rewrite extract_status_leading, Heq.
  - intros raw Heq. by rewrite extract_status_leading, Heq.
  - intros c rest Hsp Hpipe.
    destruct (first_segment_leading c rest Hsp Hpipe) as [r Hr].
    by rewrite extract_status_leading, Hr.
  - intros seg rest Hseg. rewrite !extract_status_leading. unfold first_segment.
    rewrite split_on_first by done. by rewrite (split_on_pipe_free seg Hseg).
Qed.

(** ** [split_levels] *)

Lemma foldl_insert_lookup (l : list Z) (idx : nat) (m : gmap Z nat) (n : Z) :
  foldl (λ m nid, <[nid := idx]> m) m l !! n
  = if decide (n ∈ l) then Some idx else m !! n.
Proof.
  revert m. induction l as [|x l IH]; intros m; [done|].
  change (foldl (λ m nid, <[nid := idx]> m) (<[x := idx]> m) l !! n
          = if decide (n ∈ x :: l) then Some idx else m !! n).
  rewrite IH. destruct (decide (n ∈ l)) as [Hin|Hout].
  - rewrite decide_True; [done|]. by right.
  - destruct (decide (n = x)) as [->|Hne].
    + rewrite lookup_insert_eq, decide_True; [done|]. by left.
    + rewrite lookup_insert_ne by done. rewrite decide_False; [done|].
      by intros [?|?]%elem_of_cons.
Qed.

Lemma assign_level_lookup `{SetOrder} (B : gset Z) (idx : nat) (m : gmap Z nat) (n : Z) :
  assign_level B idx m !! n = if decide (n ∈ B) then Some idx else m !! n.
Proof.
  unfold assign_level. rewrite foldl_insert_lookup.
  destruct (decide (n ∈ B)) as [Hin|Hout].
  - rewrite decide_True; [done|]. by apply elem_of_set_iter.
  - rewrite decide_False; [done|]. by rewrite elem_of_set_iter.
Qed.

Lemma foldl_push_band `{SetOrder} (bands new_levels : list (gset Z))
    (node_levels : gmap Z nat) (idx : nat) :
  foldl push_band (new_levels, node_levels, idx) bands
  = (new_levels ++ bands,
     (foldl (λ '(m, i) grp, (assign_level grp i m, S i)) (node_levels, idx) bands).1,
     (idx + length bands)%nat).
Proof.
  revert new_levels node_levels idx.
  induction bands as [|B bands IH]; intros new_levels node_levels idx; simpl.
  - by rewrite app_nil_r, Nat.add_0_r.
  - rewrite IH, <- app_assoc. simpl. do 2 f_equal. lia.
Qed.

Lemma split_chunks_push `{SetOrder} (g : list Z) (cap : Z) (js : list nat) (st : split_state) :
  0 < cap →
  foldl (split_chunk g cap) st ((λ j : nat, Z.of_nat j * cap) <$> js)
  = foldl push_band st
      (list_to_set <$> ((λ j : nat, take (Z.to_nat cap) (drop (j * Z.to_nat cap) g)) <$> js)).
Proof.
  intros Hcap. revert st. induction js as [|j js IH]; intros st; [done|]. simpl.
  rewrite IH. f_equal. destruct st as [[new_levels node_levels] idx].
  unfold split_chunk, push_band, py_slice.
  by replace (Z.to_nat (Z.of_nat j * cap)) with (j * Z.to_nat cap)%nat by lia.
Qed.

Lemma split_loop_push `{SetOrder} (cap : Z) (levels : list (gset Z)) (st : split_state) :
  0 < cap → split_loop cap st levels = Some (foldl push_band st (bands_of cap levels)).
Proof.
  intros Hcap. revert st. induction levels as [|L levels IH]; intros st; [done|].
  simpl. unfold split_group, py_range0.
  rewrite decide_False by lia. rewrite decide_False by lia. simpl.
  rewrite IH. unfold bands_of. simpl. rewrite foldl_app. do 2 f_equal.
  by apply split_chunks_push.
Qed.

(** With a positive cap the partitioner returns the bands and their index. *)
Lemma split_levels_bands `{SetOrder} (levels : list (gset Z)) (cap : Z) :
  0 < cap →
  split_levels levels cap = Some (bands_of cap levels, level_index_of (bands_of cap levels)).
Proof.
  intros Hcap. unfold split_levels. rewrite split_loop_push by done. simpl.
  by rewrite foldl_push_band.
Qed.

Lemma level_index_fold_snd `{SetOrder} (bands : list (gset Z)) (m : gmap Z nat) (i : nat) :
  (foldl (λ '(m, i) grp, (assign_level grp i m, S i)) (m, i) bands).2
  = (i + length bands)%nat.
Proof.
  revert m i. induction bands as [|B bands IH]; intros m i; simpl; [lia|].
  rewrite IH. lia.
Qed.

Lemma level_index_of_snoc `{SetOrder} (bands : list (gset Z)) (B : gset Z) :
  level_index_of (bands ++ [B]) = assign_level B (length bands) (level_index_of bands).
Proof.
  unfold level_index_of. rewrite foldl_app. simpl.
  pose proof (level_index_fold_snd bands ∅ O) as Hsnd.
  destruct (foldl _ _ bands) as [m i]. simpl in *. by subst.
Qed.

(** An index recorded for a node is the position of a band holding it. *)
Lemma level_index_of_Some `{SetOrder} (bands : list (gset Z)) (n : Z) (b : nat) :
  level_index_of bands !! n = Some b → ∃ B, bands !! b = Some B ∧ n ∈ B.
Proof.
  induction bands as [|B bands IH] using rev_ind; [done|].
  rewrite level_index_of_snoc, assign_level_lookup. case_decide as Hin.
  - intros [= <-]. exists B. split; [|done]. by apply list_lookup_middle.
  - intros Hb. destruct (IH Hb) as (B' & HB' & Hn).
    exists B'. split; [by apply lookup_app_l_Some|done].
Qed.

(** A node of some band gets an index, the position of the last band holding it. *)
Lemma level_index_of_elem `{SetOrder} (bands : list (gset Z)) (n : Z) (j : nat) (B : gset Z) :
  bands !! j = Some B → n ∈ B →
  ∃ b, level_index_of bands !! n = Some b ∧ (j ≤ b)%nat.
Proof.
  induction bands as [|B' bands IH] using rev_ind; [done|].
  intros Hj Hn. rewrite level_index_of_snoc, assign_level_lookup.
  apply lookup_snoc_Some in Hj as [[Hlt Hj]|[-> <-]].
  - case_decide.
    + exists (length bands). split; [done|lia].
    + by apply IH.
  - rewrite decide_True by done. by exists (length bands).
Qed.

Lemma level_index_of_exact `{SetOrder} (bands : list (gset Z)) (n : Z) (j : nat) (B : gset Z) :
  (∀ (i i' : nat) X X' x,
     bands !! i = Some X → bands !! i' = Some X' → x ∈ X → x ∈ X' → i = i') →
  bands !! j = Some B → n ∈ B → level_index_of bands !! n = Some j.
Proof.
  intros Hdisj Hj Hn.
  destruct (level_index_of_elem bands n j B Hj Hn) as (b & Hb & _).
  destruct (level_index_of_Some bands n b Hb) as (B' & HB' & Hn').
  by rewrite (Hdisj j b B B' n).
Qed.

(** *** Runs of an enumeration *)

Lemma chunk_count_bounds (cap : Z) (n : nat) :
  0 < cap →
  (n ≤ chunk_count cap n * Z.to_nat cap)%nat ∧
  ∀ j, (j < chunk_count cap n)%nat → (j * Z.to_nat cap < n)%nat.
Proof.
  intros Hcap. unfold chunk_count.
  pose proof (Z.div_mod (Z.of_nat n + cap - 1) cap ltac:(lia)) as Hdm.
  pose proof (Z.mod_pos_bound (Z.of_nat n + cap - 1) cap Hcap) as Hmod.
  set (q := (Z.of_nat n + cap - 1) `div` cap) in *.
  assert (0 ≤ q) by (apply Z.div_pos; lia).
  split; [nia|]. intros j Hj. nia.
Qed.

Lemma concat_runs (k : nat) (g : list Z) (a c : nat) :
  concat ((λ j : nat, take k (drop (j * k) g)) <$> seq a c)
  = take (c * k) (drop (a * k) g).
Proof.
  revert a. induction c as [|c IH]; intros a; simpl; [done|].
  rewrite IH. replace (S a * k)%nat with (a * k + k)%nat by lia.
  rewrite <- drop_drop. apply take_take_drop.
Qed.

Lemma concat_slices (cap : Z) (g : list Z) : 0 < cap → concat (slices cap g) = g.
Proof.
  intros Hcap. unfold slices. rewrite concat_runs. simpl.
  apply take_ge. apply (chunk_count_bounds cap (length g) Hcap).
Qed.

Lemma slices_Forall (cap : Z) (g : list Z) :
  0 < cap →
  Forall (λ l, l ≠ [] ∧ Z.of_nat (length l) ≤ cap ∧ l `sublist_of` g) (slices cap g).
Proof.
  intros Hcap. apply Forall_fmap, Forall_forall. intros j Hj. simpl.
  apply elem_of_seq in Hj as [_ Hj]. simpl in Hj.
  apply (chunk_count_bounds cap (length g) Hcap) in Hj.
  split_and!.
  - intros Hnil. apply (f_equal length) in Hnil.
    rewrite length_take, length_drop in Hnil. simpl in Hnil. lia.
  - rewrite length_take. lia.
  - etrans; [apply sublist_take|apply sublist_drop].
Qed.

(** A level within the cap is one run. *)
Lemma slices_small (cap : Z) (g : list Z) :
  g ≠ [] → Z.of_nat (length g) ≤ cap → slices cap g = [g].
Proof.
  intros Hg Hlen. unfold slices, chunk_count.
  assert (0 < length g)%nat by (destruct g; [done|simpl; lia]).
  replace ((Z.of_nat (length g) + cap - 1) `div` cap) with 1.
  - simpl. rewrite drop_0. f_equal. apply take_ge. lia.
  - apply Z.div_unique with (r := Z.of_nat (length g) - 1); lia.
Qed.

Lemma slices_nil (cap : Z) : 0 < cap → slices cap [] = [].
Proof.
  intros Hcap. unfold slices, chunk_count.
  replace ((Z.of_nat (length (@nil Z)) + cap - 1) `div` cap) with 0; [done|].
  symmetry. apply Z.div_small. simpl. lia.
Qed.

(** *** Bands of one level and of a list of levels *)

Lemma union_list_to_set_concat (ls : list (list Z)) :
  ⋃ ((list_to_set <$> ls) : list (gset Z)) = list_to_set (concat ls).
Proof.
  induction ls as [|l ls IH]; [done|]. simpl.
  rewrite list_to_set_app_L. f_equal. exact IH.
Qed.

Lemma level_chunks `{SetOrder} (cap : Z) (L : gset Z) :
  0 < cap →
  ⋃ ((list_to_set <$> slices cap (set_iter L)) : list (gset Z)) = L ∧
  Forall (λ B : gset Z, B ≠ ∅ ∧ Z.of_nat (size B) ≤ cap ∧ B ⊆ L)
         (list_to_set <$> slices cap (set_iter L)).
Proof.
  intros Hcap. split.
  - by rewrite union_list_to_set_concat, concat_slices, list_to_set_set_iter.
  - apply Forall_fmap. eapply Forall_impl; [by apply slices_Forall|].
    intros l (Hne & Hlen & Hsub). simpl. split_and!.
    + destruct l as [|x l]; [done|]. set_solver.
    + rewrite size_list_to_set; [done|].
      exact (sublist_NoDup _ _ (NoDup_set_iter L) Hsub).
    + intros x Hx. apply elem_of_list_to_set in Hx.
      apply elem_of_set_iter. exact (elem_of_sublist _ _ _ Hx Hsub).
Qed.

Lemma bands_of_cons `{SetOrder} (cap : Z) (L : gset Z) (levels : list (gset Z)) :
  bands_of cap (L :: levels)
  = (list_to_set <$> slices cap (set_iter L)) ++ bands_of cap levels.
Proof. done. Qed.

(** A band sits at or after the position of the level it was cut from. *)
Lemma bands_of_lookup `{SetOrder} (cap : Z) (levels : list (gset Z)) (b : nat) (B : gset Z) :
  0 < cap → Forall (λ L, L ≠ ∅) levels →
  bands_of cap levels !! b = Some B →
  ∃ (j : nat) L, levels !! j = Some L ∧ B ⊆ L ∧ (j ≤ b)%nat.
Proof.
  intros Hcap Hne. revert b. induction Hne as [|L levels HL Hne IH]; intros b Hb; [done|].
  rewrite bands_of_cons in Hb.
  destruct (level_chunks cap L Hcap) as [Hunion Hall].
  apply lookup_app_Some in Hb as [Hb|[Hge Hb]].
  - exists O, L. split_and!; [done| |lia].
    by apply (Forall_lookup_1 _ _ _ _ Hall Hb).
  - destruct (IH _ Hb) as (j & L' & HL' & Hsub & Hj).
    exists (S j), L'. split_and!; [done..|].
    assert (length (list_to_set <$> slices cap (set_iter L) : list (gset Z)) ≠ O); [|lia].
    intros Hlen. apply nil_length_inv in Hlen. rewrite Hlen in Hunion.
    simpl in Hunion. by subst.
Qed.

(** Levels within the cap are left as they are. *)
Lemma bands_of_small `{SetOrder} (cap : Z) (levels : list (gset Z)) :
  Forall (λ L, L ≠ ∅ ∧ Z.of_nat (size L) ≤ cap) levels → bands_of cap levels = levels.
Proof.
  induction 1 as [|L levels [Hne Hsize] _ IH]; [done|].
  rewrite bands_of_cons, IH, slices_small.
  - simpl. by rewrite list_to_set_set_iter.
  - intros Hnil. apply Hne. by rewrite <- (list_to_set_set_iter L), Hnil.
  - by rewrite length_set_iter.
Qed.

Lemma bands_of_Forall `{SetOrder} (cap : Z) (levels : list (gset Z)) :
  0 < cap →
  Forall (λ B : gset Z, B ≠ ∅ ∧ Z.of_nat (size B) ≤ cap) (bands_of cap levels).
Proof.
  intros Hcap. induction levels as [|L levels IH]; [constructor|].
  rewrite bands_of_cons. apply Forall_app. split; [|done].
  eapply Forall_impl; [apply (level_chunks cap L Hcap)|]. naive_solver.
Qed.

Lemma elem_of_concat (ls : list (list Z)) (x : Z) :
  x ∈ concat ls ↔ ∃ l, x ∈ l ∧ l ∈ ls.
Proof.
  induction ls as [|l0 ls IH]; simpl.
  - split; [by intros ?%elem_of_nil|]. by intros (l & _ & ?%elem_of_nil).
  - rewrite elem_of_app, IH. split.
    + intros [Hx|(l & Hx & Hl)]; [exists l0|exists l]; (split; [done|]); [by left|by right].
    + intros (l & Hx & [->|Hl]%elem_of_cons); [by left|right; by exists l].
Qed.

(** Pairwise disjoint sets, by position. *)
Lemma concat_NoDup_disjoint (ls : list (list Z)) (i j : nat) (l l' : list Z) (x : Z) :
  NoDup (concat ls) → ls !! i = Some l → ls !! j = Some l' → x ∈ l → x ∈ l' → i = j.
Proof.
  revert i j. induction ls as [|l0 ls IH]; intros i j Hnd Hi Hj Hx Hx'; [done|].
  simpl in Hnd. apply NoDup_app in Hnd as (_ & Hsep & Hnd).
  assert (∀ k l1, ls !! k = Some l1 → x ∈ l1 → x ∈ concat ls) as Hin.
  { intros k l1 Hk Hxl. apply elem_of_concat. exists l1.
    split; [done|]. by apply list_elem_of_lookup_2 in Hk. }
  destruct i as [|i], j as [|j]; simplify_eq/=; [done| | |f_equal; eauto].
  - destruct (Hsep x Hx). by eapply Hin.
  - destruct (Hsep x Hx'). by eapply Hin.
Qed.

Lemma disjoint_concat_NoDup `{SetOrder} (levels : list (gset Z)) :
  (∀ (i j : nat) L L' x,
     levels !! i = Some L → levels !! j = Some L' → x ∈ L → x ∈ L' → i = j) →
  NoDup (concat (set_iter <$> levels)).
Proof.
  induction levels as [|L levels IH]; intros Hdisj; [constructor|].
  simpl. apply NoDup_app. split_and!.
  - apply NoDup_set_iter.
  - intros x Hx Hin. apply elem_of_set_iter in Hx.
    apply elem_of_concat in Hin as (l & Hxl & Hl).
    apply list_elem_of_fmap in Hl as (L' & -> & HL').
    apply list_elem_of_lookup_1 in HL' as [j Hj].
    apply elem_of_set_iter in Hxl.
    by specialize (Hdisj O (S j) L L' x eq_refl Hj Hx Hxl).
  - apply IH. intros i j X X' x Hi Hj Hx Hx'.
    by specialize (Hdisj (S i) (S j) X X' x Hi Hj Hx Hx') as [= ->].
Qed.

Lemma bands_of_fmap `{SetOrder} (cap : Z) (levels : list (gset Z)) :
  bands_of cap levels
  = list_to_set <$> concat ((λ L, slices cap (set_iter L)) <$> levels).
Proof.
  induction levels as [|L levels IH]; [done|].
  rewrite bands_of_cons, IH. simpl. by rewrite fmap_app.
Qed.

Lemma concat_all_slices `{SetOrder} (cap : Z) (levels : list (gset Z)) :
  0 < cap →
  concat (concat ((λ L, slices cap (set_iter L)) <$> levels)) = concat (set_iter <$> levels).
Proof.
  intros Hcap. induction levels as [|L levels IH]; [done|].
  simpl. rewrite concat_app, concat_slices by done. f_equal. exact IH.
Qed.

(** Splitting disjoint levels gives disjoint bands. *)
Lemma bands_of_disjoint `{SetOrder} (cap : Z) (levels : list (gset Z)) :
  0 < cap →
  (∀ (i j : nat) L L' x,
     levels !! i = Some L → levels !! j = Some L' → x ∈ L → x ∈ L' → i = j) →
  ∀ (i j : nat) B B' x,
    bands_of cap levels !! i = Some B → bands_of cap levels !! j = Some B' →
    x ∈ B → x ∈ B' → i = j.
Proof.
  intros Hcap Hdisj i j B B' x. rewrite bands_of_fmap.
  intros (l & -> & Hi)%list_lookup_fmap_Some (l' & -> & Hj)%list_lookup_fmap_Some.
  rewrite !elem_of_list_to_set. intros Hx Hx'.
  eapply concat_NoDup_disjoint; [|exact Hi|exact Hj|done..].
  rewrite concat_all_slices by done. by apply disjoint_concat_NoDup.
Qed.

(** ** The traversal does not depend on the iteration order *)

Lemma expand_order (H1 H2 : SetOrder) (nbrs : Z → gset Z) (frontier visited : gset Z) :
  expand (H:=H1) nbrs frontier visited = expand (H:=H2) nbrs frontier visited.
Proof.
  unfold expand. rewrite !foldl_rounds.
  assert (⋃ (nbrs <$> set_iter (SetOrder:=H1) frontier)
          = ⋃ (nbrs <$> set_iter (SetOrder:=H2) frontier)) as ->; [|done].
  apply set_eq. intros x. rewrite !elem_of_union_list.
  split; intros (X & HX & Hx); exists X; (split; [|done]);
    apply list_elem_of_fmap in HX as (u & -> & Hu); apply list_elem_of_fmap_2;
    apply elem_of_set_iter; by apply elem_of_set_iter in Hu.
Qed.

Lemma bfs_loop_order (H1 H2 : SetOrder) (nbrs : Z → gset Z) (n : nat)
    (levels : list (gset Z)) (visited frontier : gset Z) :
  bfs_loop (H:=H1) nbrs n levels visited frontier
  = bfs_loop (H:=H2) nbrs n levels visited frontier.
Proof.
  revert levels visited frontier.
  induction n as [|n IH]; intros levels visited frontier; [done|].
  simpl. rewrite (expand_order H1 H2).
  destruct (expand nbrs frontier visited) as [visited' nxt].
  case_decide; [done|apply IH].
Qed.

Lemma bfs_levels_order (H1 H2 : SetOrder) (start depth : Z)
    (out_adj in_adj : gmap Z (gset Z)) (direction : string) :
  bfs_levels (H:=H1) start depth out_adj in_adj direction
  = bfs_levels (H:=H2) start depth out_adj in_adj direction.
Proof. apply bfs_loop_order. Qed.

(** ** Partition of the levels *)

(** C4 (amended). With a positive cap, [split_levels] cuts each level along
    the iteration order of the set, whatever that order is: every band is
    non-empty and has at most [cap] nodes; the bands are the runs of the
    first level, then those of the second, and so on, so the runs of one
    level are never interleaved with another's; the runs of a level make up
    the level; a node's index is the position, counted from 0, of the band
    holding it; and when ids are enumerated in ascending order, cap 2 on
    [{3,1,4,5}] gives [{1,3}] then [{4,5}]. *)
Theorem split_levels_partition `{SetOrder} (levels : list (gset Z)) (cap : Z) :
  0 < cap →
  ∃ bands node_levels,
    split_levels levels cap = Some (bands, node_levels) ∧
    Forall (λ B : gset Z, B ≠ ∅ ∧ Z.of_nat (size B) ≤ cap) bands ∧
    bands = concat ((λ L, list_to_set <$> slices cap (set_iter L)) <$> levels) ∧
    Forall (λ L, ⋃ ((list_to_set <$> slices cap (set_iter L)) : list (gset Z)) = L) levels ∧
    (∀ n (i : nat), node_levels !! n = Some i → ∃ B, bands !! i = Some B ∧ n ∈ B) ∧
    (∀ (i : nat) B n, bands !! i = Some B → n ∈ B →
       ∃ i' : nat, node_levels !! n = Some i' ∧ (i ≤ i')%nat) ∧
    ((∀ (i j : nat) L L' x,
        levels !! i = Some L → levels !! j = Some L' → x ∈ L → x ∈ L' → i = j) →
     ∀ (i : nat) B n, bands !! i = Some B → n ∈ B → node_levels !! n = Some i) ∧
    split_levels (H:=sorted_order) [ {[3; 1; 4; 5]} ] 2
    = Some ([ {[1; 3]}; {[4; 5]} ], {[1 := O; 3 := O; 4 := 1%nat; 5 := 1%nat]}).
Proof.
  intros Hcap. exists (bands_of cap levels), (level_index_of (bands_of cap levels)).
  split_and!.
  - by apply split_levels_bands.
  - by apply bands_of_Forall.
  - done.
  - apply Forall_forall. intros L _. by apply level_chunks.
  - intros n i. apply level_index_of_Some.
  - intros i B n. apply level_index_of_elem.
  - intros Hdisj i B n. apply level_index_of_exact. by apply bands_of_disjoint.
  - vm_compute. reflexivity.
Qed.

Lemma split_levels_partition_witness :
  ∃ bands node_levels,
    split_levels (H:=slot_order) [ {[8; 1; 2]} ] 2 = Some (bands, node_levels) ∧
    Forall (λ B : gset Z, B ≠ ∅ ∧ Z.of_nat (size B) ≤ 2) bands.
Proof.
  destruct (split_levels_partition (H:=slot_order) [ {[8; 1; 2]} ] 2 ltac:(lia))
    as (bands & node_levels & Heq & Hall & _).
  by exists bands, node_levels.
Defined.

(** C4, counterexample.  The code does not sort: on [{8, 1, 2}] with cap 2,
    walking the set by hash slot gives the bands [{8,1}] and [{2}], while
    cutting the ids in ascending order gives [{1,2}] and [{8}]. *)
Lemma split_levels_not_sorted :
  fst <$> split_levels (H:=slot_order) [ {[8; 1; 2]} ] 2 = Some [ {[8; 1]}; {[2]} ] ∧
  sorted_chunks 2 {[8; 1; 2]} = [ {[1; 2]}; {[8]} ] ∧
  fst <$> split_levels (H:=slot_order) [ {[8; 1; 2]} ] 2 ≠ Some (sorted_chunks 2 {[8; 1; 2]}).
Proof.
  split_and!; [vm_compute; reflexivity..|].
  vm_compute. discriminate.
Qed.

(** ** Band indices and distances *)

Lemma bands_of_cover `{SetOrder} (cap : Z) (levels : list (gset Z)) (k : nat) (L : gset Z) (n : Z) :
  0 < cap → levels !! k = Some L → n ∈ L →
  ∃ (j : nat) B, bands_of cap levels !! j = Some B ∧ n ∈ B.
Proof.
  intros Hcap. revert k. induction levels as [|L0 levels IH]; intros k Hk Hn; [done|].
  rewrite bands_of_cons. destruct k as [|k]; simpl in Hk.
  - injection Hk as ->. destruct (level_chunks cap L Hcap) as [Hunion _].
    rewrite <- Hunion in Hn. apply elem_of_union_list in Hn as (B & HB & Hn).
    apply list_elem_of_lookup_1 in HB as [j Hj].
    exists j, B. split; [by apply lookup_app_l_Some|done].
  - destruct (IH k Hk Hn) as (j & B & Hj & HnB).
    exists (length (list_to_set <$> slices cap (set_iter L0) : list (gset Z)) + j)%nat, B.
    split; [|done]. rewrite lookup_app_r by lia.
    by replace (length (list_to_set <$> slices cap (set_iter L0) : list (gset Z)) + j
                - length (list_to_set <$> slices cap (set_iter L0) : list (gset Z)))%nat
      with j by lia.
Qed.

(** C5 (amended). After partitioning with a positive cap, every visited node
    [n] has a band index [b], and its BFS distance [d] from the start node
    under the configured direction (a path of [d] edges, none shorter)
    satisfies [d ≤ b]; [d = b] when no level of the traversal has more nodes
    than the cap. *)
Theorem band_index_bounds_distance `{SetOrder} (start depth : Z)
    (out_adj in_adj : gmap Z (gset Z)) (direction : string) (cap : Z) :
  direction ∈ ["out"; "in"; "both"] → 0 < cap →
  let R := permitted out_adj in_adj direction in
  let levels := (bfs_levels start depth out_adj in_adj direction).1 in
  let visited := (bfs_levels start depth out_adj in_adj direction).2 in
  ∃ bands node_levels,
    split_levels levels cap = Some (bands, node_levels) ∧
    ∀ n, n ∈ visited →
      ∃ b d : nat, node_levels !! n = Some b ∧ dist R start d n ∧ (d ≤ b)%nat ∧
                   (Forall (λ L : gset Z, Z.of_nat (size L) ≤ cap) levels → d = b).
Proof.
  intros Hdir Hcap R levels visited.
  destruct (bfs_levels_inv start depth out_adj in_adj direction) as [Hinv Hlen].
  fold levels visited in Hinv, Hlen.
  exists (bands_of cap levels), (level_index_of (bands_of cap levels)).
  split; [by apply split_levels_bands|].
  intros n Hn. apply (inv_visited _ _ _ _ _ Hinv) in Hn as (k & L & HL & Hn).
  destruct (bands_of_cover cap levels k L n Hcap HL Hn) as (j & B & Hj & HnB).
  destruct (level_index_of_elem _ n j B Hj HnB) as (b & Hb & _).
  exists b, k. split; [done|]. split.
  { apply (dist_ext (nbr_rel (neighbors out_adj in_adj direction))).
    - intros u w. by apply neighbors_permitted.
    - by apply (bfs_inv_dist _ _ _ _ _ _ _ _ Hinv Hlen HL). }
  assert (Forall (λ L : gset Z, L ≠ ∅) levels) as Hne.
  { apply Forall_lookup. intros i X. apply (inv_nonempty _ _ _ _ _ Hinv). }
  destruct (level_index_of_Some _ n b Hb) as (B' & HB' & HnB').
  split.
  - destruct (bands_of_lookup cap levels b B' Hcap Hne HB') as (j' & L' & HL' & Hsub & Hle).
    assert (j' = k) as <-; [|done].
    apply (inv_disjoint _ _ _ _ _ Hinv j' k L' L n); auto.
  - intros Hsmall. symmetry.
    rewrite bands_of_small in HB'.
    + by apply (inv_disjoint _ _ _ _ _ Hinv b k B' L n).
    + apply Forall_forall. intros X HX.
      split; [by apply (proj1 (Forall_forall _ _) Hne)|by apply (proj1 (Forall_forall _ _) Hsmall)].
Qed.

Lemma band_index_bounds_distance_witness :
  ∃ bands node_levels,
    split_levels (H:=sorted_order)
      (bfs_levels (H:=sorted_order) 0 1 (build_adjacency star_edges).1
                  (build_adjacency star_edges).2 "out").1 20
    = Some (bands, node_levels) ∧
    ∃ b d : nat, node_levels !! 21 = Some b ∧ (d ≤ b)%nat ∧
      dist (permitted (build_adjacency star_edges).1 (build_adjacency star_edges).2 "out") 0 d 21.
Proof.
  destruct (band_index_bounds_distance (H:=sorted_order) 0 1
              (build_adjacency star_edges).1 (build_adjacency star_edges).2 "out" 20)
    as (bands & node_levels & Heq & Hall).
  - repeat constructor.
  - lia.
  - exists bands, node_levels. split; [exact Heq|].
    destruct (Hall 21) as (b & d & Hb & Hd & Hle & _).
    + vm_compute. reflexivity.
    + by exists b, d.
Defined.

(** C5, counterexample.  With 21 neighbours and the cap 20 of [main] (ids
    enumerated in ascending order), node 21 is visited at
    distance 1 and gets band index 2: there is a path of length 1 to it, so
    its index is not its distance. *)
Lemma band_index_not_distance :
  let out_adj := (build_adjacency star_edges).1 in
  let in_adj := (build_adjacency star_edges).2 in
  let R := permitted out_adj in_adj "out" in
  let levels := (bfs_levels (H:=sorted_order) 0 1 out_adj in_adj "out").1 in
  let visited := (bfs_levels (H:=sorted_order) 0 1 out_adj in_adj "out").2 in
  21 ∈ visited ∧
  (nl ← snd <$> split_levels (H:=sorted_order) levels 20; nl !! 21) = Some 2%nat ∧
  path R 0 1 21 ∧
  ¬ (path R 0 2 21 ∧ ∀ j, (j < 2)%nat → ¬ path R 0 j 21).
Proof.
  intros out_adj in_adj R levels visited.
  assert (path R 0 1 21) as Hp.
  { apply (path_snoc R 0 O 0 21); [constructor|].
    left. split; [done|]. vm_compute. reflexivity. }
  split_and!; [vm_compute; reflexivity..|exact Hp|].
  intros [_ Hmin]. by apply (Hmin 1%nat); [lia|].
Qed.

(** ** The end-to-end scenario *)

Lemma scenario_parse :
  parse_source_text scenario_text
  = ([(0, "Start"); (1, "A"); (2, "B")],
     [mkEdge 0 1 "E" Enabled None; mkEdge 1 2 "S|note" Suspended None;
      mkEdge 2 0 "D" Disabled None],
     [(0, "Start"); (1, "A"); (2, "B")]).
Proof. vm_compute. reflexivity. Qed.

Lemma scenario_bfs `{SetOrder} :
  bfs_levels 0 1
    (build_adjacency [mkEdge 0 1 "E" Enabled None; mkEdge 1 2 "S|note" Suspended None;
                      mkEdge 2 0 "D" Disabled None]).1
    (build_adjacency [mkEdge 0 1 "E" Enabled None; mkEdge 1 2 "S|note" Suspended None;
                      mkEdge 2 0 "D" Disabled None]).2 "both"
  = ([ {[0]}; {[1; 2]} ], {[0; 1; 2]}).
Proof. rewrite (bfs_levels_order _ elements_order). vm_compute. reflexivity. Qed.

(** C8. On the scenario text with start node 0, hop budget 1 and direction
    both, the run visits [{0,1,2}] and gives band 0 to node 0 and band 1 to
    nodes 1 and 2. *)
Theorem scenario_bands `{SetOrder} (cfg : DotConfig) :
  ∃ r, run_pipeline scenario_text "0" 1 "both" false cfg = Some r ∧
       run_start r = 0 ∧
       run_included r = {[0; 1; 2]} ∧
       run_node_levels r !! 0 = Some O ∧
       run_node_levels r !! 1 = Some 1%nat ∧
       run_node_levels r !! 2 = Some 1%nat.
Proof.
  unfold run_pipeline. rewrite scenario_parse.
  change (resolve_start_node "0" _ _) with (Some 0).
  cbv beta iota zeta. cbn [mbind option_bind].
  pose proof scenario_bfs as Hbfs.
  destruct (build_adjacency _) as [out_adj in_adj]. simpl in Hbfs. rewrite Hbfs.
  rewrite split_levels_bands by lia.
  rewrite bands_of_small.
  2:{ repeat constructor; try (vm_compute; discriminate); set_solver. }
  cbn [mbind option_bind]. eexists. split; [reflexivity|].
  cbn [run_start run_included run_node_levels].
  change [ ({[0]} : gset Z); {[1; 2]} ] with (([] ++ [ ({[0]} : gset Z) ]) ++ [ {[1; 2]} ]).
  rewrite !level_index_of_snoc. split_and!; [done..| | |];
    rewrite !assign_level_lookup; repeat case_decide; set_solver.
Qed.

(** ** The edge loop of [generate_dot] *)







(** ** [resolve_start_node] *)

(** Whatever [int()] accepts is returned at once; the node tables are not
    consulted. *)
Lemma resolve_start_node_int (start_value : string) (n : Z)
    (nodes original_nodes : dict string) :
  py_int start_value = Some n →
  resolve_start_node start_value nodes original_nodes = Some n.
Proof. intros Hint. unfold resolve_start_node. by rewrite Hint. Qed.

(** A value that is not an integer literal resolves exactly when some label
    matches it after trimming and case folding; otherwise the error is
    raised. *)
Lemma resolve_start_node_label (start_value : string) (nodes original_nodes : dict string) :
  py_int start_value = None →
  resolve_start_node start_value nodes original_nodes = None ↔
  ∀ nid label, (nid, label) ∈ original_nodes →
               lower (strip label) ≠ lower (strip start_value).
Proof.
  intros Hint. unfold resolve_start_node. rewrite Hint.
  rewrite fmap_None. split.
  - intros Hnone nid label Hin. apply list_elem_of_In in Hin.
    apply (find_none _ _ Hnone) in Hin. simpl in Hin.
    by apply bool_decide_eq_false in Hin.
  - intros Hall. induction original_nodes as [|[nid label] rest IH]; [done|].
    simpl. rewrite bool_decide_eq_false_2.
    + apply IH. intros nid' label' Hin. apply (Hall nid' label'). by right.
    + apply (Hall nid label). by left.
Qed.

Lemma absent_start_bfs `{SetOrder} :
  bfs_levels 7 1
    (build_adjacency [mkEdge 0 1 "E" Enabled None; mkEdge 1 2 "S|note" Suspended None;
                      mkEdge 2 0 "D" Disabled None]).1
    (build_adjacency [mkEdge 0 1 "E" Enabled None; mkEdge 1 2 "S|note" Suspended None;
                      mkEdge 2 0 "D" Disabled None]).2 "both"
  = ([ {[7]} ], {[7]}).
Proof. rewrite (bfs_levels_order _ elements_order). vm_compute. reflexivity. Qed.

(** C3, the code at an id that is not in the graph.  The scenario text
    declares the nodes 0, 1 and 2 and no edge touches 7; the start value [7]
    is nevertheless resolved to 7, no error is raised, and the run goes on to
    produce the one-node neighbourhood [{7}]. *)
Theorem resolve_start_node_absent_id `{SetOrder} (cfg : DotConfig) :
  dict_get 7 (parse_source_text scenario_text).1.1 = None ∧
  Forall (λ e, src e ≠ 7 ∧ dst e ≠ 7) (parse_source_text scenario_text).1.2 ∧
  resolve_start_node "7" (parse_source_text scenario_text).1.1
                     (parse_source_text scenario_text).2 = Some 7 ∧
  ∃ r, run_pipeline scenario_text "7" 1 "both" false cfg = Some r ∧
       run_start r = 7 ∧ run_levels r = [ {[7]} ] ∧ run_included r = {[7]}.
Proof.
  split_and!.
  - by rewrite scenario_parse.
  - rewrite scenario_parse. simpl. repeat constructor; done.
  - by rewrite scenario_parse.
  - unfold run_pipeline. rewrite scenario_parse.
    change (resolve_start_node "7" _ _) with (Some 7).
    cbv beta iota zeta. cbn [mbind option_bind].
    pose proof absent_start_bfs as Hbfs.
    destruct (build_adjacency _) as [out_adj in_adj]. simpl in Hbfs. rewrite Hbfs.
    rewrite split_levels_bands by lia.
    cbn [mbind option_bind]. eexists. split; [reflexivity|]. done.
Qed.

(** * Further properties of the code *)

(** ** [build_adjacency] *)

Lemma adj_add_elem (k v u x : Z) (adj : gmap Z (gset Z)) :
  x ∈ default ∅ (adj_add k v adj !! u) ↔ x ∈ default ∅ (adj !! u) ∨ (u = k ∧ x = v).
Proof.
  unfold adj_add. destruct (decide (k = u)) as [->|Hne].
  - rewrite lookup_insert_eq. simpl. set_solver.
  - rewrite lookup_insert_ne by done. naive_solver.
Qed.

Lemma build_adjacency_snoc (edges : list Edge) (e : Edge) :
  build_adjacency (edges ++ [e])
  = (adj_add (src e) (dst e) (build_adjacency edges).1,
     adj_add (dst e) (src e) (build_adjacency edges).2).
Proof.
  unfold build_adjacency. rewrite foldl_app. simpl.
  by destruct (foldl _ _ edges) as [out_adj in_adj].
Qed.

Lemma out_adj_elem (edges : list Edge) (u v : Z) :
  v ∈ default ∅ ((build_adjacency edges).1 !! u) ↔ ∃ e, e ∈ edges ∧ src e = u ∧ dst e = v.
Proof.
  induction edges as [|e edges IH] using rev_ind.
  - simpl. rewrite lookup_empty. simpl. split; [set_solver|].
    by intros (e & ?%elem_of_nil & _).
  - rewrite build_adjacency_snoc. simpl. rewrite adj_add_elem, IH. split.
    + intros [(e' & He' & Hs & Hd)|[-> ->]].
      * exists e'. split; [|done]. apply elem_of_app. by left.
      * exists e. split; [|done]. apply elem_of_app. right. by apply list_elem_of_singleton.
    + intros (e' & He' & Hs & Hd). apply elem_of_app in He' as [He'|He'].
      * left. by exists e'.
      * apply list_elem_of_singleton in He' as ->. by right.
Qed.

Lemma in_adj_elem (edges : list Edge) (u v : Z) :
  v ∈ default ∅ ((build_adjacency edges).2 !! u) ↔ ∃ e, e ∈ edges ∧ dst e = u ∧ src e = v.
Proof.
  induction edges as [|e edges IH] using rev_ind.
  - simpl. rewrite lookup_empty. simpl. split; [set_solver|].
    by intros (e & ?%elem_of_nil & _).
  - rewrite build_adjacency_snoc. simpl. rewrite adj_add_elem, IH. split.
    + intros [(e' & He' & Hs & Hd)|[-> ->]].
      * exists e'. split; [|done]. apply elem_of_app. by left.
      * exists e. split; [|done]. apply elem_of_app. right. by apply list_elem_of_singleton.
    + intros (e' & He' & Hs & Hd). apply elem_of_app in He' as [He'|He'].
      * left. by exists e'.
      * apply list_elem_of_singleton in He' as ->. by right.
Qed.

(** X1. The adjacency maps hold the edges and nothing else: [v] is a
    successor of [u] exactly when some edge goes from [u] to [v], [v] is a
    predecessor of [u] exactly when some edge goes from [v] to [u], so each
    map is the converse of the other; the status of an edge plays no part. *)
Theorem build_adjacency_edges (edges : list Edge) (u v : Z) :
  (v ∈ default ∅ ((build_adjacency edges).1 !! u)
   ↔ ∃ e, e ∈ edges ∧ src e = u ∧ dst e = v) ∧
  (v ∈ default ∅ ((build_adjacency edges).2 !! u)
   ↔ ∃ e, e ∈ edges ∧ src e = v ∧ dst e = u) ∧
  (v ∈ default ∅ ((build_adjacency edges).1 !! u)
   ↔ u ∈ default ∅ ((build_adjacency edges).2 !! v)).
Proof.
  split_and!.
  - apply out_adj_elem.
  - rewrite in_adj_elem. naive_solver.
  - rewrite out_adj_elem, in_adj_elem. naive_solver.
Qed.

(** ** More on [bfs_levels] *)

Lemma expand_ext `{SetOrder} (nbrs nbrs' : Z → gset Z) (frontier visited : gset Z) :
  (∀ u, nbrs u = nbrs' u) → expand nbrs frontier visited = expand nbrs' frontier visited.
Proof.
  intros Hext. unfold expand. generalize (visited, (∅ : gset Z)).
  induction (set_iter frontier) as [|u us IH]; intros acc; [done|].
  simpl. by rewrite Hext, IH.
Qed.

Lemma bfs_loop_ext `{SetOrder} (nbrs nbrs' : Z → gset Z) (n : nat)
    (levels : list (gset Z)) (visited frontier : gset Z) :
  (∀ u, nbrs u = nbrs' u) →
  bfs_loop nbrs n levels visited frontier = bfs_loop nbrs' n levels visited frontier.
Proof.
  intros Hext. revert levels visited frontier.
  induction n as [|n IH]; intros levels visited frontier; [done|].
  simpl. rewrite (expand_ext nbrs nbrs') by done.
  destruct (expand nbrs' frontier visited) as [visited' nxt].
  case_decide; [done|apply IH].
Qed.

Lemma build_adjacency_reverse (edges : list Edge) :
  build_adjacency (reverse_edge <$> edges)
  = ((build_adjacency edges).2, (build_adjacency edges).1).
Proof.
  induction edges as [|e edges IH] using rev_ind; [done|].
  rewrite fmap_app. simpl. rewrite !build_adjacency_snoc, IH. done.
Qed.

(** X2. Turning every edge round swaps the two adjacency maps, so the
    backward traversal of a graph is the forward traversal of the reversed
    graph (and conversely), and the traversal in both directions is the
    same on the graph and on its reverse. *)
Theorem bfs_levels_reverse `{SetOrder} (edges : list Edge) (start depth : Z) :
  let adj := build_adjacency edges in
  let radj := build_adjacency (reverse_edge <$> edges) in
  radj = (adj.2, adj.1) ∧
  bfs_levels start depth radj.1 radj.2 "out" = bfs_levels start depth adj.1 adj.2 "in" ∧
  bfs_levels start depth radj.1 radj.2 "in" = bfs_levels start depth adj.1 adj.2 "out" ∧
  bfs_levels start depth radj.1 radj.2 "both" = bfs_levels start depth adj.1 adj.2 "both".
Proof.
  intros adj radj. unfold radj. rewrite build_adjacency_reverse. fold adj. simpl.
  split_and!; [done|..]; unfold bfs_levels; apply bfs_loop_ext; intros u;
    unfold neighbors; simpl; [done|done|].
  apply (comm_L (∪)).
Qed.

(** Once a round finds nothing new, further rounds are never run. *)
Lemma bfs_loop_saturated `{SetOrder} (nbrs : Z → gset Z) (n : nat) :
  ∀ (levels : list (gset Z)) (visited frontier : gset Z) (m : nat),
    (length (bfs_loop nbrs n levels visited frontier).1 < length levels + n)%nat →
    (n ≤ m)%nat →
    bfs_loop nbrs m levels visited frontier = bfs_loop nbrs n levels visited frontier.
Proof.
  induction n as [|n IH]; intros levels visited frontier m Hlen Hm.
  { simpl in Hlen. lia. }
  destruct m as [|m]; [lia|]. simpl in *.
  destruct (expand nbrs frontier visited) as [visited' nxt].
  case_decide; [done|].
  apply IH; [|lia]. rewrite length_app. simpl. lia.
Qed.

(** X3. When the traversal returns fewer levels than its hop budget allows
    (the [break] was taken), a larger budget returns the same levels and the
    same visited set. *)
Theorem bfs_levels_saturated `{SetOrder} (start d1 d2 : Z)
    (out_adj in_adj : gmap Z (gset Z)) (direction : string) :
  Z.of_nat (length (bfs_levels start d1 out_adj in_adj direction).1) ≤ d1 →
  d1 ≤ d2 →
  bfs_levels start d2 out_adj in_adj direction
  = bfs_levels start d1 out_adj in_adj direction.
Proof.
  unfold bfs_levels. rewrite !clamp_to_nat. intros Hlen Hle.
  apply bfs_loop_saturated; simpl; lia.
Qed.

Lemma bfs_levels_saturated_witness :
  bfs_levels (H:=elements_order) 0 9 {[0 := {[1]}]} ∅ "out"
  = bfs_levels (H:=elements_order) 0 2 {[0 := {[1]}]} ∅ "out".
Proof.
  apply (bfs_levels_saturated (H:=elements_order) 0 2 9); [vm_compute; discriminate|lia].
Defined.

(** X4. With a hop budget of zero or less, or from a start node that has no
    neighbour under the direction (in particular one that is no key of the
    adjacency maps), the traversal returns the single level [{start}] and
    the visited set [{start}]. *)
Theorem bfs_levels_trivial `{SetOrder} (start depth : Z)
    (out_adj in_adj : gmap Z (gset Z)) (direction : string) :
  depth ≤ 0 ∨ neighbors out_adj in_adj direction start = ∅ →
  bfs_levels start depth out_adj in_adj direction = ([ {[start]} ], {[start]}).
Proof.
  intros Hcase. unfold bfs_levels. rewrite clamp_to_nat.
  destruct (Z.to_nat depth) as [|n] eqn:Hn; [done|].
  destruct Hcase as [Hd|Hnone]; [lia|]. simpl.
  destruct (expand_spec (neighbors out_adj in_adj direction) {[start]} {[start]})
    as (nxt & -> & Hnxt).
  assert (nxt = ∅) as ->.
  { apply set_eq. intros v. rewrite Hnxt. split; [|set_solver].
    intros [_ (u & Hu & Hv)]. apply elem_of_singleton in Hu as ->.
    by rewrite Hnone in Hv. }
  rewrite decide_True by done. by rewrite (right_id_L ∅ (∪)).
Qed.

Lemma bfs_levels_trivial_witness :
  bfs_levels (H:=elements_order) 5 3 {[0 := {[1]}]} {[1 := {[0]}]} "both"
  = ([ {[5]} ], {[5]}).
Proof.
  apply (bfs_levels_trivial (H:=elements_order)). right. vm_compute. reflexivity.
Defined.

(** X5. On the adjacency maps of an edge list, the traversal never visits a
    node that is neither the start node nor an end of some edge. *)
Theorem bfs_levels_visits_graph_nodes `{SetOrder} (edges : list Edge) (start depth : Z)
    (direction : string) (v : Z) :
  v ∈ (bfs_levels start depth (build_adjacency edges).1 (build_adjacency edges).2
                  direction).2 →
  v = start ∨ ∃ e, e ∈ edges ∧ (src e = v ∨ dst e = v).
Proof.
  intros Hv.
  destruct (bfs_levels_inv start depth (build_adjacency edges).1
              (build_adjacency edges).2 direction) as [Hinv _].
  apply (inv_visited _ _ _ _ _ Hinv) in Hv as (k & L & HL & Hv).
  pose proof (inv_sound _ _ _ _ _ Hinv k L v HL Hv) as Hp.
  inversion Hp as [|n u v' _ Hstep]; subst; [by left|right].
  unfold nbr_rel, neighbors in Hstep.
  repeat case_decide; rewrite ?elem_of_union in Hstep;
    repeat match goal with
           | H : _ ∨ _ |- _ => destruct H
           | H : _ ∈ default ∅ ((build_adjacency _).1 !! _) |- _ =>
               apply out_adj_elem in H as (e & He & Hs & Hd)
           | H : _ ∈ default ∅ ((build_adjacency _).2 !! _) |- _ =>
               apply in_adj_elem in H as (e & He & Hs & Hd)
           end; exists e; eauto.
Qed.

Lemma bfs_levels_visits_graph_nodes_witness :
  1 = 0 ∨ ∃ e, e ∈ [mkEdge 0 1 "" Enabled None] ∧ (src e = 1 ∨ dst e = 1).
Proof.
  apply (bfs_levels_visits_graph_nodes (H:=elements_order)
           [mkEdge 0 1 "" Enabled None] 0 1 "out" 1).
  vm_compute. reflexivity.
Defined.

(** ** More on [split_levels] *)

Lemma split_loop_negative `{SetOrder} (cap : Z) (levels : list (gset Z)) (st : split_state) :
  cap < 0 → split_loop cap st levels = Some st.
Proof.
  intros Hcap. induction levels as [|L levels IH]; [done|].
  simpl. unfold split_group, py_range0.
  rewrite decide_False by lia. rewrite decide_True by lia. simpl. exact IH.
Qed.

(** X6. A cap that is not positive: with cap 0 the partitioner raises as soon
    as there is a level (and returns nothing for no level); with a negative
    cap it returns no band and an empty index, whatever the levels hold. *)
Theorem split_levels_nonpositive_cap `{SetOrder} (levels : list (gset Z)) (cap : Z) :
  (levels ≠ [] → split_levels levels 0 = None) ∧
  split_levels [] cap = Some ([], ∅) ∧
  (cap < 0 → split_levels levels cap = Some ([], ∅)).
Proof.
  split_and!.
  - destruct levels as [|L levels]; [done|]. by intros _.
  - done.
  - intros Hcap. unfold split_levels. by rewrite split_loop_negative.
Qed.

Lemma split_levels_nonpositive_cap_witness :
  split_levels (H:=elements_order) [ {[1; 2]} ] 0 = None ∧
  split_levels (H:=elements_order) [ {[1; 2]} ] (-3) = Some ([], ∅).
Proof.
  destruct (split_levels_nonpositive_cap (H:=elements_order) [ {[1; 2]} ] (-3))
    as (Hzero & _ & Hneg).
  split; [by apply Hzero|apply Hneg; lia].
Defined.

(** X7. Splitting again with a cap at least as large changes nothing: the
    bands and the index returned for cap [cap] are returned unchanged when
    the bands are split with [cap' ≥ cap] (as [export_html] does with 30
    after the 20 of [main]). *)
Theorem split_levels_again `{SetOrder} (levels bands : list (gset Z))
    (node_levels : gmap Z nat) (cap cap' : Z) :
  0 < cap → cap ≤ cap' →
  split_levels levels cap = Some (bands, node_levels) →
  split_levels bands cap' = Some (bands, node_levels).
Proof.
  intros Hcap Hle. rewrite split_levels_bands by done. intros [= <- <-].
  rewrite split_levels_bands by lia.
  rewrite bands_of_small; [done|].
  eapply Forall_impl; [by apply bands_of_Forall|].
  intros B [Hne Hsize]. split; [done|lia].
Qed.

Lemma split_levels_again_witness :
  ∃ bands node_levels,
    split_levels (H:=sorted_order) [ {[3; 1; 4; 5]} ] 2 = Some (bands, node_levels) ∧
    split_levels (H:=sorted_order) bands 3 = Some (bands, node_levels).
Proof.
  exists [ {[1; 3]}; {[4; 5]} ], {[1 := O; 3 := O; 4 := 1%nat; 5 := 1%nat]}.
  assert (split_levels (H:=sorted_order) [ {[3; 1; 4; 5]} ] 2
          = Some ([ {[1; 3]}; {[4; 5]} ], {[1 := O; 3 := O; 4 := 1%nat; 5 := 1%nat]}))
    as Hfirst by (vm_compute; reflexivity).
  split; [exact Hfirst|].
  apply (split_levels_again (H:=sorted_order) [ {[3; 1; 4; 5]} ] _ _ 2 3); [lia|lia|exact Hfirst].
Defined.

Lemma level_index_of_dom `{SetOrder} (bands : list (gset Z)) :
  dom (level_index_of bands) = ⋃ bands.
Proof.
  induction bands as [|B bands IH] using rev_ind; [done|].
  rewrite level_index_of_snoc, union_list_app_L. simpl.
  rewrite (right_id_L ∅ (∪)), <- IH.
  apply set_eq. intros n. rewrite elem_of_union, !elem_of_dom, assign_level_lookup.
  case_decide; naive_solver.
Qed.

Lemma bands_of_union `{SetOrder} (cap : Z) (levels : list (gset Z)) :
  0 < cap → ⋃ bands_of cap levels = ⋃ levels.
Proof.
  intros Hcap. induction levels as [|L levels IH]; [done|].
  rewrite bands_of_cons, union_list_app_L, IH. simpl.
  by rewrite (proj1 (level_chunks cap L Hcap)).
Qed.

(** X8. With a positive cap no node is lost or invented by the partitioner:
    the bands hold exactly the nodes of the levels, and the index map is
    defined exactly on them. *)
Theorem split_levels_keeps_nodes `{SetOrder} (levels bands : list (gset Z))
    (node_levels : gmap Z nat) (cap : Z) :
  0 < cap →
  split_levels levels cap = Some (bands, node_levels) →
  ⋃ bands = ⋃ levels ∧ dom node_levels = ⋃ levels.
Proof.
  intros Hcap. rewrite split_levels_bands by done. intros [= <- <-].
  rewrite level_index_of_dom. split; by apply bands_of_union.
Qed.

Lemma split_levels_keeps_nodes_witness :
  dom ({[1 := O; 3 := O; 4 := 1%nat; 5 := 1%nat]} : gmap Z nat)
  = ⋃ [ ({[3; 1; 4; 5]} : gset Z) ].
Proof.
  apply (split_levels_keeps_nodes (H:=sorted_order) [ {[3; 1; 4; 5]} ]
           [ {[1; 3]}; {[4; 5]} ] _ 2); [lia|vm_compute; reflexivity].
Defined.

(** X9. The two writers see the same level for every node: the map
    [level_index] that [generate_dot] rebuilds from the bands is the
    [node_levels] map of [split_levels], and for a cap of at most 30 the
    level [export_html] stores for a node is its index in that map (0 for a
    node that has none). *)
Theorem writers_agree_on_levels `{SetOrder} (levels bands : list (gset Z))
    (node_levels : gmap Z nat) (cap : Z) :
  0 < cap →
  split_levels levels cap = Some (bands, node_levels) →
  level_index_of bands = node_levels ∧
  (cap ≤ 30 → ∀ nid, html_node_level bands nid = Some (default O (node_levels !! nid))).
Proof.
  intros Hcap Hsplit. split.
  - rewrite split_levels_bands in Hsplit by done. by injection Hsplit as <- <-.
  - intros Hle nid. unfold html_node_level.
    assert (split_levels bands 30 = Some (bands, node_levels)) as ->; [|done].
    rewrite split_levels_bands in Hsplit by done. injection Hsplit as <- <-.
    rewrite split_levels_bands by lia.
    rewrite bands_of_small; [done|].
    eapply Forall_impl; [by apply bands_of_Forall|].
    intros B [Hne Hsize]. split; [done|lia].
Qed.

Lemma writers_agree_on_levels_witness :
  level_index_of (H:=sorted_order) [ {[1; 3]}; {[4; 5]} ]
  = {[1 := O; 3 := O; 4 := 1%nat; 5 := 1%nat]}.
Proof.
  apply (writers_agree_on_levels (H:=sorted_order) [ {[3; 1; 4; 5]} ]
           [ {[1; 3]}; {[4; 5]} ] _ 2); [lia|vm_compute; reflexivity].
Defined.

(** ** [parse_source_text] *)

Lemma dict_get_set_eq {V} (k : Z) (v : V) (d : dict V) :
  dict_get k (dict_set k v d) = Some v.
Proof.
  induction d as [|[k' v'] d IH]; simpl.
  - by rewrite decide_True.
  - destruct (decide (k = k')) as [->|Hne]; simpl.
    + by rewrite decide_True.
    + by rewrite decide_False.
Qed.

Lemma dict_get_set_ne {V} (k k' : Z) (v : V) (d : dict V) :
  k ≠ k' → dict_get k (dict_set k' v d) = dict_get k d.
Proof.
  intros Hne. induction d as [|[k0 v0] d IH]; simpl.
  - by rewrite decide_False.
  - destruct (decide (k' = k0)) as [->|Hne']; simpl.
    + by rewrite !decide_False.
    + destruct (decide (k = k0)); [done|exact IH].
Qed.

Lemma add_node_step (nodes : dict string) (m : string * string) :
  add_node (nodes, nodes) m
  = match dict_get (digits_value 0 m.1) nodes with
    | Some (String _ _) => (nodes, nodes)
    | _ => (dict_set (digits_value 0 m.1) (strip m.2) nodes,
            dict_set (digits_value 0 m.1) (strip m.2) nodes)
    end.
Proof. done. Qed.

(** The label of [nid] after the node loop has run over [ms] from a state
    in which the two tables are equal. *)
Lemma add_node_fold (nid : Z) (ms : list (string * string)) (nodes : dict string) :
  foldl add_node (nodes, nodes) ms
  = ((foldl add_node (nodes, nodes) ms).1, (foldl add_node (nodes, nodes) ms).1) ∧
  dict_get nid (foldl add_node (nodes, nodes) ms).1
  = match dict_get nid nodes with
    | Some (String c l) => Some (String c l)
    | Some EmptyString => Some (default EmptyString (first_label nid ms))
    | None => first_label nid ms
    end.
Proof.
  revert nodes. induction ms as [|m ms IH]; intros nodes.
  { simpl. split; [done|]. by destruct (dict_get nid nodes) as [[|c l]|]. }
  change (foldl add_node (nodes, nodes) (m :: ms))
    with (foldl add_node (add_node (nodes, nodes) m) ms).
  rewrite add_node_step. cbn [first_label].
  destruct (dict_get (digits_value 0 m.1) nodes) as [[|c0 l0]|] eqn:Hcur.
  - (* the id has an empty label: it is overwritten *)
    destruct (IH (dict_set (digits_value 0 m.1) (strip m.2) nodes)) as [Heq Hget].
    split; [exact Heq|]. rewrite Hget.
    destruct (decide (digits_value 0 m.1 = nid)) as [<-|Hne].
    + rewrite dict_get_set_eq, Hcur. by destruct (strip m.2).
    + by rewrite dict_get_set_ne by done.
  - (* the id has a label: the match is ignored *)
    destruct (IH nodes) as [Heq Hget]. split; [exact Heq|]. rewrite Hget.
    destruct (decide (digits_value 0 m.1 = nid)) as [<-|Hne]; [|done].
    by rewrite Hcur.
  - (* the id is new *)
    destruct (IH (dict_set (digits_value 0 m.1) (strip m.2) nodes)) as [Heq Hget].
    split; [exact Heq|]. rewrite Hget.
    destruct (decide (digits_value 0 m.1 = nid)) as [<-|Hne].
    + rewrite dict_get_set_eq, Hcur. by destruct (strip m.2).
    + by rewrite dict_get_set_ne by done.
Qed.

(** X10. The first label that is not empty wins: after parsing, the label of
    an id is the first non-empty (trimmed) label among the node matches for
    that id, the empty label when every match for it is empty, and the id is
    absent when nothing matches it; the table [original_nodes] is equal to
    [nodes]. *)
Theorem parse_first_label_wins (source_text : string) (nid : Z) :
  (parse_source_text source_text).2 = (parse_source_text source_text).1.1 ∧
  dict_get nid (parse_source_text source_text).1.1
  = first_label nid (node_matches source_text).
Proof.
  destruct (add_node_fold nid (node_matches source_text) []) as [Heq Hget].
  unfold parse_source_text.
  destruct (foldl add_node _ _) as [nodes original_nodes] eqn:Hfold. simpl.
  simpl in Heq, Hget. split; [by injection Heq|exact Hget].
Qed.

Lemma rstrip_idemp (s : string) : rstrip (rstrip s) = rstrip s.
Proof.
  induction s as [|c s IH]; [done|]. simpl.
  destruct (is_space c && bool_decide (rstrip s = EmptyString)) eqn:Hc; [done|].
  simpl. by rewrite IH, Hc.
Qed.

Lemma lstrip_strip (s : string) : lstrip (strip s) = strip s.
Proof.
  unfold strip. induction s as [|c s IH]; [done|]. simpl.
  destruct (is_space c) eqn:Hc; [exact IH|].
  simpl. rewrite Hc. simpl. by rewrite Hc.
Qed.

Lemma strip_idemp (s : string) : strip (strip s) = strip s.
Proof.
  unfold strip at 1. rewrite lstrip_strip. unfold strip. apply rstrip_idemp.
Qed.

(** X11. Every parsed edge carries a trimmed label, the status that
    [extract_status] gives to that very label, and no bidirectional flag. *)
Theorem parse_edges_classified (source_text : string) :
  Forall (λ e, strip (raw_label e) = raw_label e ∧
               status e = extract_status (raw_label e) ∧
               bidirectional e = None)
         (parse_source_text source_text).1.2.
Proof.
  unfold parse_source_text.
  destruct (foldl add_node _ _) as [nodes original_nodes]. simpl.
  induction (edge_matches source_text) as [|[[ds dd] lbl] ms IH] using rev_ind;
    [constructor|].
  rewrite foldl_app. simpl. apply Forall_app. split; [exact IH|].
  constructor; [|constructor]. simpl. by rewrite strip_idemp.
Qed.

Lemma finditer_no_match {M} (try : string → option (M * string)) (p : ascii → bool)
    (s : string) :
  (∀ c r, p c = true → try (String c r) = None) →
  all_chars p s = true → finditer try O s = [].
Proof.
  intros Htry. induction s as [|c s IH]; [done|]. simpl.
  intros [Hc Hs]%andb_prop. rewrite (Htry c s Hc). by apply IH.
Qed.

(** X12. A text without any decimal digit, the empty text included, parses
    to no node and no edge; nothing is raised. *)
Theorem parse_without_digits (source_text : string) :
  all_chars (λ c, negb (is_digit c)) source_text = true →
  parse_source_text source_text = ([], [], []).
Proof.
  intros Hno. unfold parse_source_text, node_matches, edge_matches.
  rewrite (finditer_no_match _ (λ c, negb (is_digit c))); [|intros c r Hc|done].
  - rewrite (finditer_no_match _ (λ c, negb (is_digit c))); [done|intros c r Hc|done].
    unfold match_edge. simpl. apply negb_true_iff in Hc. by rewrite Hc.
  - unfold match_node. simpl. apply negb_true_iff in Hc. by rewrite Hc.
Qed.

Lemma parse_without_digits_witness :
  parse_source_text "digraph G { a -> b; }" = ([], [], []).
Proof. apply parse_without_digits. vm_compute. reflexivity. Defined.

(** ** Integer literals: [int()], the scanner and the printer *)

Lemma string_app_assoc (a b c : string) : (a +:+ b) +:+ c = a +:+ (b +:+ c).
Proof.
  induction a as [|x a IH]; [done|].
  change (String x ((a +:+ b) +:+ c) = String x (a +:+ (b +:+ c))). by rewrite IH.
Qed.

Lemma string_app_nil_r (a : string) : a +:+ EmptyString = a.
Proof.
  induction a as [|x a IH]; [done|].
  change (String x (a +:+ EmptyString) = String x a). by rewrite IH.
Qed.

Lemma all_chars_app (p : ascii → bool) (a b : string) :
  all_chars p (a +:+ b) = all_chars p a && all_chars p b.
Proof.
  induction a as [|x a IH]; [done|].
  change (p x && all_chars p (a +:+ b) = p x && all_chars p a && all_chars p b).
  by rewrite IH, andb_assoc.
Qed.

Lemma all_chars_impl (p q : ascii → bool) (s : string) :
  (∀ c, p c = true → q c = true) → all_chars p s = true → all_chars q s = true.
Proof.
  intros Hpq. induction s as [|c s IH]; [done|]. simpl.
  intros [Hc Hs]%andb_prop. by rewrite (Hpq c Hc), IH.
Qed.

Lemma rstrip_no_space (s : string) :
  all_chars (λ c, negb (is_space c)) s = true → rstrip s = s.
Proof.
  induction s as [|c s IH]; [done|]. simpl.
  intros [Hc Hs]%andb_prop. apply negb_true_iff in Hc. by rewrite Hc, IH.
Qed.

Lemma strip_no_space (s : string) :
  all_chars (λ c, negb (is_space c)) s = true → strip s = s.
Proof.
  intros Hs. unfold strip. destruct s as [|c s]; [done|].
  pose proof Hs as Hs'. simpl in Hs'. apply andb_prop in Hs' as [Hc _].
  apply negb_true_iff in Hc. simpl lstrip. rewrite Hc. by apply rstrip_no_space.
Qed.

Lemma digits_value_app (acc : Z) (a b : string) :
  digits_value acc (a +:+ b) = digits_value (digits_value acc a) b.
Proof.
  revert acc. induction a as [|x a IH]; intros acc; [done|].
  change (digits_value (acc * 10 + digit_val x) (a +:+ b)
          = digits_value (digits_value (acc * 10 + digit_val x) a) b).
  apply IH.
Qed.

Lemma int_digits_digits (acc : Z) (b : bool) (s : string) :
  all_chars is_digit s = true →
  int_digits acc b s
  = match s with
    | EmptyString => if b then Some acc else None
    | _ => Some (digits_value acc s)
    end.
Proof.
  revert acc b. induction s as [|c s IH]; intros acc b; [done|]. simpl.
  intros [Hc Hs]%andb_prop. rewrite Hc, (IH _ true Hs). by destruct s.
Qed.

Lemma is_digit_not_space (c : ascii) : is_digit c = true → negb (is_space c) = true.
Proof.
  unfold is_digit, is_space. generalize (nat_of_ascii c). intros n Hd.
  apply andb_prop in Hd as [H1 H2]. apply Nat.leb_le in H1, H2.
  apply negb_true_iff, orb_false_iff. split; apply andb_false_iff.
  - right. apply Nat.leb_gt. lia.
  - right. apply Nat.leb_gt. lia.
Qed.

Lemma is_int_space_is_space (c : ascii) : is_int_space c = true → is_space c = true.
Proof.
  unfold is_int_space, is_space. generalize (nat_of_ascii c). intros n.
  intros [H1|H2%Nat.eqb_eq]%orb_prop; apply orb_true_iff; [by left|right].
  by subst.
Qed.

Lemma int_strip_no_space (s : string) :
  all_chars (λ c, negb (is_space c)) s = true → int_rstrip (int_lstrip s) = s.
Proof.
  intros Hs.
  assert (all_chars (λ c, negb (is_int_space c)) s = true) as Hi.
  { eapply all_chars_impl; [|exact Hs]. intros c Hc. apply negb_true_iff.
    apply negb_true_iff in Hc. destruct (is_int_space c) eqn:Hic; [|done].
    by rewrite (is_int_space_is_space c Hic) in Hc. }
  clear Hs.
  assert (int_rstrip s = s) as Hr.
  { induction s as [|c s IH]; [done|]. simpl in *.
    apply andb_prop in Hi as [Hc Hs]. apply negb_true_iff in Hc.
    by rewrite Hc, IH. }
  destruct s as [|c s]; [done|]. simpl in Hi.
  apply andb_prop in Hi as [Hc _]. apply negb_true_iff in Hc.
  simpl int_lstrip. by rewrite Hc.
Qed.

Lemma py_int_digits (ds : string) :
  ds ≠ EmptyString → all_chars is_digit ds = true →
  py_int ds = Some (digits_value 0 ds).
Proof.
  intros Hne Hds. unfold py_int.
  rewrite int_strip_no_space by (eapply all_chars_impl; [apply is_digit_not_space|done]).
  destruct ds as [|c ds]; [done|].
  pose proof Hds as Hds'. simpl in Hds'. apply andb_prop in Hds' as [Hc _].
  assert (c ≠ "+"%char ∧ c ≠ "-"%char) as [Hplus Hminus].
  { split; intros ->; vm_compute in Hc; discriminate. }
  assert (match String c ds with
          | String "+" r => int_digits 0 false r
          | String "-" r => Z.opp <$> int_digits 0 false r
          | t => int_digits 0 false t
          end = int_digits 0 false (String c ds)) as ->.
  { destruct c as [[] [] [] [] [] [] [] []]; try done. }
  by rewrite int_digits_digits.
Qed.

(** X13. A start value written in decimal digits resolves, whatever the
    tables hold, to the number the scanner computes for the same digits
    (leading zeros included): an id typed as it stands in the file is the
    id of the parsed model. *)
Theorem resolve_start_node_digits (ds : string) (nodes original_nodes : dict string) :
  ds ≠ EmptyString → all_chars is_digit ds = true →
  resolve_start_node ds nodes original_nodes = Some (digits_value 0 ds).
Proof.
  intros Hne Hds. unfold resolve_start_node. by rewrite py_int_digits.
Qed.

Lemma resolve_start_node_digits_witness :
  resolve_start_node "007" [(7, "seven")] [(7, "seven")] = Some (digits_value 0 "007").
Proof. apply resolve_start_node_digits; [discriminate|vm_compute; reflexivity]. Defined.

Lemma digit_val_pretty_char (m : N) :
  (m < 10)%N → digit_val (pretty_N_char m) = Z.of_N m ∧ is_digit (pretty_N_char m) = true.
Proof.
  intros Hm.
  destruct m as [|p]; [done|].
  do 4 (destruct p as [p|p|]; try (vm_compute in Hm; discriminate); try done).
Qed.

(** The printer writes the decimal digits of a number in front of the text
    it is given. *)
Lemma pretty_N_go_digits (x : N) (s : string) :
  ∃ d, pretty_N_go x s = d +:+ s ∧ all_chars is_digit d = true ∧
       digits_value 0 d = Z.of_N x ∧ ((0 < x)%N → d ≠ EmptyString).
Proof.
  revert s. induction (N.lt_wf_0 x) as [x _ IH]. intros s.
  destruct (decide (0 < x)%N) as [Hpos|Hzero].
  - rewrite pretty_N_go_step by done.
    destruct (IH (x `div` 10)%N) with (s := String (pretty_N_char (x `mod` 10)) s)
      as (d & Hgo & Hall & Hval & _).
    { apply N.div_lt; lia. }
    destruct (digit_val_pretty_char (x `mod` 10)%N) as [Hdv Hdg].
    { apply N.mod_lt. lia. }
    exists (d +:+ String (pretty_N_char (x `mod` 10)) EmptyString). split_and!.
    + by rewrite Hgo, string_app_assoc.
    + rewrite all_chars_app, Hall. simpl. by rewrite Hdg.
    + rewrite digits_value_app, Hval. simpl. rewrite Hdv.
      pose proof (N.div_mod x 10 ltac:(lia)). lia.
    + intros _. by destruct d.
  - assert (x = 0%N) as -> by lia. exists EmptyString. split_and!; (done || lia).
Qed.

Lemma pretty_N_digits (x : N) :
  ∃ d, pretty x = d ∧ d ≠ EmptyString ∧ all_chars is_digit d = true ∧
       digits_value 0 d = Z.of_N x.
Proof.
  unfold pretty, pretty_N. case_decide as Hx.
  - subst. by exists "0".
  - destruct (pretty_N_go_digits x EmptyString) as (d & Hgo & Hall & Hval & Hne).
    exists d. rewrite Hgo, string_app_nil_r. split_and!; try done. apply Hne. lia.
Qed.

Lemma py_int_pretty (n : Z) : py_int (pretty n) = Some n.
Proof.
  destruct n as [|p|p].
  - done.
  - change (pretty (Z.pos p)) with (pretty (N.pos p)).
    destruct (pretty_N_digits (N.pos p)) as (d & -> & Hne & Hall & Hval).
    rewrite py_int_digits by done. by rewrite Hval.
  - change (pretty (Z.neg p)) with ("-" +:+ pretty (N.pos p)).
    destruct (pretty_N_digits (N.pos p)) as (d & -> & Hne & Hall & Hval).
    unfold py_int. rewrite int_strip_no_space.
    + simpl. rewrite int_digits_digits by done. destruct d; [done|].
      simpl. f_equal. simpl in Hval. lia.
    + simpl. eapply all_chars_impl; [apply is_digit_not_space|done].
Qed.

(** X14. Printing an id and reading it back gives the id: the decimal text
    that the writers put in their output for a node, given as start value,
    resolves to that node, for every integer, negative ones included. *)
Theorem resolve_start_node_pretty (n : Z) (nodes original_nodes : dict string) :
  resolve_start_node (pretty n) nodes original_nodes = Some n.
Proof. unfold resolve_start_node. by rewrite py_int_pretty. Qed.

(** ** [escape_label] *)

(** One pass over the text does both replacements. *)
Lemma escape_label_cons (c : ascii) (s : string) :
  escape_label (String c s)
  = if decide (c = backslash) then String backslash (String backslash (escape_label s))
    else if decide (c = dquote) then String backslash (String dquote (escape_label s))
    else String c (escape_label s).
Proof.
  unfold escape_label. simpl.
  destruct (decide (c = backslash)) as [->|Hb]; [done|].
  simpl. by destruct (decide (c = dquote)).
Qed.

Lemma escape_label_app (a b : string) :
  escape_label (a +:+ b) = escape_label a +:+ escape_label b.
Proof.
  induction a as [|c a IH]; [done|].
  change (String c a +:+ b) with (String c (a +:+ b)).
  rewrite !escape_label_cons, IH. by repeat case_decide.
Qed.

Lemma escape_label_clean (s : string) :
  all_chars (λ c, bool_decide (c ≠ backslash ∧ c ≠ dquote)) s = true →
  escape_label s = s.
Proof.
  induction s as [|c s IH]; [done|]. simpl.
  intros [[Hb Hq]%bool_decide_eq_true Hs]%andb_prop.
  rewrite escape_label_cons, decide_False, decide_False by done. by rewrite IH.
Qed.

(** X15. Escaping loses nothing: a reader that takes a backslash as standing
    for the character after it gets the label back, so two different labels
    never have the same escaped text; and text without backslash or double
    quote is left as it is. *)
Theorem escape_label_round_trip (text text' : string) :
  unescape (escape_label text) = text ∧
  (escape_label text = escape_label text' → text = text') ∧
  (all_chars (λ c, bool_decide (c ≠ backslash ∧ c ≠ dquote)) text = true →
   escape_label text = text).
Proof.
  assert (∀ s, unescape (escape_label s) = s) as Hrt.
  { induction s as [|c s IH]; [done|]. rewrite escape_label_cons.
    destruct (decide (c = backslash)) as [->|Hb]; [simpl; by rewrite IH|].
    destruct (decide (c = dquote)) as [->|Hq]; [simpl; by rewrite IH|].
    simpl. rewrite decide_False by done. by rewrite IH. }
  split_and!; [apply Hrt| |apply escape_label_clean].
  intros Heq. by rewrite <- (Hrt text), Heq, Hrt.
Qed.

(** ** The node section of [generate_dot] *)

Lemma digit_clean (c : ascii) :
  is_digit c = true → bool_decide (c ≠ backslash ∧ c ≠ dquote) = true.
Proof.
  intros Hc. apply bool_decide_eq_true. split; intros ->; vm_compute in Hc; discriminate.
Qed.

Lemma escape_label_pretty (n : Z) : escape_label (pretty n) = pretty n.
Proof.
  apply escape_label_clean. destruct n as [|p|p].
  - done.
  - change (pretty (Z.pos p)) with (pretty (N.pos p)).
    destruct (pretty_N_digits (N.pos p)) as (d & -> & _ & Hall & _).
    eapply all_chars_impl; [apply digit_clean|done].
  - change (pretty (Z.neg p)) with ("-" +:+ pretty (N.pos p)).
    destruct (pretty_N_digits (N.pos p)) as (d & -> & _ & Hall & _).
    change ("-" +:+ d) with (String "-" d). simpl.
    eapply all_chars_impl; [apply digit_clean|done].
Qed.

(** X16. In a node line the id and the name are not separated by a DOT line
    break: the backslash that [generate_dot] puts before the letter [n] is
    itself escaped by [escape_label], so a node with a name is labelled
    with its id, two backslashes, [n] and the escaped name; a node without
    a name (absent from the table or with an empty label) is labelled with
    its id alone. *)
Theorem node_line_label (nodes : dict string) (start nid : Z) :
  node_line nodes start nid
  = "  " +:+ pretty nid +:+ " ["
    +:+ quoted "label"
          (match default EmptyString (dict_get nid nodes) with
           | EmptyString => pretty nid
           | name => pretty nid
                     +:+ String backslash (String backslash "n")
                     +:+ escape_label name
           end)
    +:+ ", "
    +:+ quoted "fillcolor" (if decide (nid = start) then "#fff3cd" else "#f0f4ff")
    +:+ "];".
Proof.
  unfold node_line, node_display.
  destruct (default EmptyString (dict_get nid nodes)) as [|c name].
  - by rewrite escape_label_pretty.
  - rewrite escape_label_app, escape_label_pretty.
    change (String backslash "n" +:+ String c name)
      with (String backslash (String "n" (String c name))).
    rewrite escape_label_cons, decide_True by done.
    rewrite (escape_label_cons "n"), decide_False, decide_False by done.
    done.
Qed.

(** ** [resolve_start_node] by label *)

Lemma find_first {A} (p : A → bool) (l : list A) (x : A) :
  List.find p l = Some x →
  ∃ l1 l2, l = l1 ++ x :: l2 ∧ p x = true ∧ Forall (λ y, p y = false) l1.
Proof.
  induction l as [|y l IH]; [done|]. simpl.
  destruct (p y) eqn:Hy.
  - intros [= ->]. by exists [], l.
  - intros Hfind. destruct (IH Hfind) as (l1 & l2 & -> & Hx & Hl1).
    exists (y :: l1), l2. split_and!; [done..|]. by constructor.
Qed.

(** X17. A start value that is not an integer literal is resolved by label
    alone: the result is the id of the first entry, in the order of the
    table, whose label equals the value after trimming and case folding of
    both; the error is raised exactly when no entry has such a label. *)
Theorem resolve_start_node_by_label (start_value : string)
    (nodes original_nodes : dict string) :
  py_int start_value = None →
  (∀ nid, resolve_start_node start_value nodes original_nodes = Some nid →
     ∃ before label after,
       original_nodes = before ++ (nid, label) :: after ∧
       lower (strip label) = lower (strip start_value) ∧
       Forall (λ entry, lower (strip entry.2) ≠ lower (strip start_value)) before) ∧
  (resolve_start_node start_value nodes original_nodes = None ↔
   ∀ nid label, (nid, label) ∈ original_nodes →
                lower (strip label) ≠ lower (strip start_value)).
Proof.
  intros Hint. split; [|by apply resolve_start_node_label].
  intros nid. unfold resolve_start_node. rewrite Hint.
  intros Hres. apply fmap_Some in Hres as ([nid' label] & Hfind & ->).
  apply find_first in Hfind as (l1 & l2 & -> & Hx & Hl1).
  exists l1, label, l2. split_and!; [done|by apply bool_decide_eq_true in Hx|].
  eapply Forall_impl; [exact Hl1|]. intros [k l] Hk. simpl.
  by apply bool_decide_eq_false in Hk.
Qed.

Lemma resolve_start_node_by_label_witness :
  py_int (String "031" "12") = None ∧
  resolve_start_node (String "031" "12") [] [(4, "x"); (40, "12"); (12, "12")] = Some 40 ∧
  ∃ before label after,
    [(4, "x"); (40, "12"); (12, "12")] = before ++ (40, label) :: after ∧
    lower (strip label) = lower (strip (String "031" "12")) ∧
    Forall (λ entry : Z * string,
              lower (strip entry.2) ≠ lower (strip (String "031" "12"))) before.
Proof.
  assert (py_int (String "031" "12") = None) as Hint by (vm_compute; reflexivity).
  assert (resolve_start_node (String "031" "12") [] [(4, "x"); (40, "12"); (12, "12")]
          = Some 40) as Hres by (vm_compute; reflexivity).
  split_and!; [exact Hint|exact Hres|].
  exact (proj1 (resolve_start_node_by_label (String "031" "12") []
                  [(4, "x"); (40, "12"); (12, "12")] Hint) 40 Hres).
Defined.

(** ** More on [merge_bidirectional_edges] *)

Lemma merge_snoc (edges : list Edge) (e : Edge) :
  foldl merge_step ([], ∅) (edges ++ [e])
  = merge_step (foldl merge_step ([], ∅) edges) e.
Proof. by rewrite foldl_app. Qed.

(** Every entry of the merged list is an edge of the input, flag apart. *)
Lemma merge_entries (edges : list Edge) (m : Edge) :
  m ∈ merge_bidirectional_edges edges →
  ∃ e b, e ∈ edges ∧ m = set_bidirectional b e.
Proof.
  intros Hm. apply list_elem_of_lookup_1 in Hm as [i Hm].
  destruct (merge_fold_inv edges) as (_ & Hmerged & _).
  destruct (Hmerged i m Hm) as (_ & l1 & e & l2 & -> & _ & ->).
  eexists e, _. split; [|done]. apply elem_of_app. right. by left.
Qed.

Lemma merge_keys (edges : list Edge) :
  NoDup (pair_key <$> merge_bidirectional_edges edges) ∧
  ∀ k, k ∈ pair_key <$> merge_bidirectional_edges edges ↔ k ∈ pair_key <$> edges.
Proof.
  destruct (merge_fold_inv edges) as (Hseen & Hmerged & Hcov). split.
  - apply NoDup_alt. intros i j k Hi Hj.
    apply list_lookup_fmap_Some in Hi as (mi & -> & Hi).
    apply list_lookup_fmap_Some in Hj as (mj & Hk & Hj).
    destruct (Hmerged _ _ Hi) as [Hsi _]. destruct (Hmerged _ _ Hj) as [Hsj _].
    rewrite <- Hk in Hsj. congruence.
  - intros k. split.
    + intros (m & -> & Hm)%list_elem_of_fmap.
      destruct (merge_entries edges m Hm) as (e & b & He & ->).
      rewrite pair_key_set_bidirectional. by apply list_elem_of_fmap_2.
    + intros (e & -> & He)%list_elem_of_fmap.
      destruct (Hcov _ He) as [i Hi]. destruct (Hseen _ _ Hi) as (m & Hm & <-).
      apply list_elem_of_fmap_2. by apply list_elem_of_lookup_2 in Hm.
Qed.

Lemma merge_fresh_pair (edges : list Edge) (e : Edge) :
  pair_key e ∉ pair_key <$> edges →
  merge_bidirectional_edges (edges ++ [e])
  = merge_bidirectional_edges edges ++ [set_bidirectional false e].
Proof.
  intros Hfresh. unfold merge_bidirectional_edges. rewrite merge_snoc.
  destruct (merge_fold_inv edges) as (Hseen & _ & _).
  destruct (merge_keys edges) as [_ Hkeys].
  unfold merge_bidirectional_edges in Hkeys.
  destruct (foldl merge_step ([], ∅) edges) as [merged seen]. simpl in *.
  destruct (seen !! pair_key e) as [i|] eqn:Hlook; [|done].
  destruct (Hseen _ _ Hlook) as (m & Hm & Hk).
  destruct Hfresh. apply Hkeys. rewrite <- Hk.
  apply list_elem_of_fmap_2. by apply list_elem_of_lookup_2 in Hm.
Qed.

(** X18. The merged list has as many entries as the input has distinct
    unordered pairs; and an input in which no pair comes twice is returned
    as it is, in the same order, every edge flagged false. *)
Theorem merge_bidirectional_edges_count (edges : list Edge) :
  length (merge_bidirectional_edges edges)
  = size (list_to_set (pair_key <$> edges) : gset (Z * Z)) ∧
  (NoDup (pair_key <$> edges) →
   merge_bidirectional_edges edges = set_bidirectional false <$> edges).
Proof.
  split.
  - destruct (merge_keys edges) as [Hnd Hkeys].
    rewrite <- (length_fmap pair_key), <- (size_list_to_set (C:=gset (Z * Z))) by done.
    f_equal. apply set_eq. intros k. by rewrite !elem_of_list_to_set.
  - induction edges as [|e edges IH] using rev_ind; [done|].
    rewrite fmap_app. intros (Hnd & Hsep & _)%NoDup_app.
    rewrite merge_fresh_pair, IH, fmap_app; [done..|].
    intros Hin. apply (Hsep _ Hin). simpl. by left.
Qed.

Lemma merge_bidirectional_edges_count_witness :
  merge_bidirectional_edges [mkEdge 1 2 "a" Enabled None; mkEdge 3 2 "b" Disabled None]
  = [mkEdge 1 2 "a" Enabled (Some false); mkEdge 3 2 "b" Disabled (Some false)].
Proof.
  apply (proj2 (merge_bidirectional_edges_count
                  [mkEdge 1 2 "a" Enabled None; mkEdge 3 2 "b" Disabled None])).
  vm_compute. repeat constructor; set_solver.
Defined.

(** ** The edge data of [export_html] *)

Lemma vis_edges_snoc (edges : list Edge) (included_nodes : gset Z) (e : Edge) :
  foldl (vis_edge_step included_nodes) ([], O) (edges ++ [e])
  = vis_edge_step included_nodes (foldl (vis_edge_step included_nodes) ([], O) edges) e.
Proof. by rewrite foldl_app. Qed.

Lemma vis_edges_inv (edges : list Edge) (included_nodes : gset Z) :
  let st := foldl (vis_edge_step included_nodes) ([], O) edges in
  st.2 = length st.1 ∧
  (∀ (i : nat) ve, st.1 !! i = Some ve →
     ve_id ve = i ∧
     ∃ e, e ∈ edges ∧ src e ∈ included_nodes ∧ dst e ∈ included_nodes ∧
          ve_from ve = src e ∧ ve_to ve = dst e ∧ ve_status ve = status e ∧
          (ve_arrows ve = "to,from" ↔ bidirectional e = Some true) ∧
          (ve_dashes ve = None ↔ status e = Enabled)) ∧
  (Forall (λ e, src e ∈ included_nodes ∧ dst e ∈ included_nodes) edges →
   length st.1 = length edges).
Proof.
  induction edges as [|e edges IH] using rev_ind.
  { simpl. split_and!; [done| |done]. by intros i ve ?. }
  rewrite vis_edges_snoc.
  destruct (foldl (vis_edge_step included_nodes) ([], O) edges) as [vs n].
  simpl in IH. destruct IH as (Hn & Hall & Hlen). unfold vis_edge_step.
  destruct (bool_decide (src e ∈ included_nodes) && bool_decide (dst e ∈ included_nodes))
    eqn:Hin.
  - apply andb_prop in Hin as [Hs%bool_decide_eq_true Hd%bool_decide_eq_true].
    assert (∀ P Q R : Prop, P → Q → R → P ∧ Q ∧ R) as Hsplit by tauto.
    destruct (status e) eqn:Hst; simpl; apply Hsplit;
      try (rewrite length_app; simpl; lia);
      try (intros [Hfa _]%Forall_app; rewrite !length_app, Hlen by done; done);
      (intros i ve [[Hlt Hve]|[-> <-]]%lookup_snoc_Some;
       [destruct (Hall i ve Hve) as (Hid & e' & He' & Hrest);
        split; [done|]; exists e'; split; [apply elem_of_app; by left|done]
       |split; [by simpl|]; exists e; split; [apply elem_of_app; right; by left|];
        simpl; rewrite Hst; split_and!; try done;
        destruct (bidirectional e) as [[]|]; simpl; split; (done || congruence)]).
  - simpl. split_and!; [done| |].
    + intros i ve Hve. destruct (Hall i ve Hve) as (Hid & e' & He' & Hrest).
      split; [done|]. exists e'. split; [apply elem_of_app; by left|done].
    + intros [_ He]%Forall_app. apply Forall_singleton in He as [Hs Hd].
      rewrite (bool_decide_eq_true_2 _ Hs), (bool_decide_eq_true_2 _ Hd) in Hin. done.
Qed.

(** X19. In the edge data of the interactive page the ids are the positions
    0, 1, 2, ... of the entries; every entry comes from an edge with both
    ends among the included nodes and keeps its ends and status; it has
    arrows both ways exactly when the edge is flagged bidirectional (an
    edge without the flag counts as not flagged), and it is drawn solid
    exactly when the edge is Enabled. *)
Theorem vis_edges_entries (edges : list Edge) (included_nodes : gset Z)
    (i : nat) (ve : VisEdge) :
  vis_edges edges included_nodes !! i = Some ve →
  ve_id ve = i ∧
  ∃ e, e ∈ edges ∧ src e ∈ included_nodes ∧ dst e ∈ included_nodes ∧
       ve_from ve = src e ∧ ve_to ve = dst e ∧ ve_status ve = status e ∧
       (ve_arrows ve = "to,from" ↔ bidirectional e = Some true) ∧
       (ve_dashes ve = None ↔ status e = Enabled).
Proof.
  destruct (vis_edges_inv edges included_nodes) as (_ & Hall & _). apply Hall.
Qed.

Lemma vis_edges_entries_witness :
  ve_id (mkVisEdge 0 1 2 Suspended "to,from" "#e57373" "0.5" (Some (5, 5))) = O.
Proof.
  apply (vis_edges_entries [mkEdge 7 1 "" Enabled None; mkEdge 1 2 "S" Suspended (Some true)]
           {[1; 2]} O).
  vm_compute. reflexivity.
Defined.

(** ** The run as a whole *)

Lemma omap_all_Some {A B} (f : A → option B) (l : list A) :
  Forall (λ x, is_Some (f x)) l → length (omap f l) = length l.
Proof.
  induction 1 as [|x l [y Hy] _ IH]; [done|]. simpl. rewrite Hy. simpl.
  f_equal. exact IH.
Qed.

Lemma render_edge_inside (cfg : DotConfig) (included_nodes : gset Z)
    (level_index : gmap Z nat) (e : Edge) :
  level_edges_only cfg = false →
  src e ∈ included_nodes → dst e ∈ included_nodes →
  is_Some (render_edge cfg included_nodes level_index e).
Proof.
  intros Honly Hs Hd. unfold render_edge.
  rewrite (bool_decide_eq_false_2 (src e ∉ included_nodes)) by tauto.
  rewrite (bool_decide_eq_false_2 (dst e ∉ included_nodes)) by tauto.
  rewrite Honly. simpl. by eexists.
Qed.

(** X20. In a run, every edge handed to the writers has both ends in the
    visited set and comes from a parsed edge (of status Enabled when only
    enabled edges are kept); so, unless only level edges are asked for, the
    layered description has exactly one line per merged edge, and the
    interactive page one entry per merged edge. *)
Theorem run_edges_inside `{SetOrder} (source_text start_arg : string) (depth : Z)
    (direction : string) (enabled_only : bool) (cfg : DotConfig) (r : Run) :
  run_pipeline source_text start_arg depth direction enabled_only cfg = Some r →
  Forall (λ m, src m ∈ run_included r ∧ dst m ∈ run_included r ∧
               ∃ e b, e ∈ (parse_source_text source_text).1.2 ∧
                      m = set_bidirectional b e ∧
                      (enabled_only = true → status e = Enabled))
         (run_edges r) ∧
  (level_edges_only cfg = false →
   length (run_dot_edges r) = length (run_edges r)) ∧
  length (vis_edges (run_edges r) (run_included r)) = length (run_edges r).
Proof.
  unfold run_pipeline.
  destruct (parse_source_text source_text) as [[nodes edges] original_nodes]. simpl.
  set (kept := if enabled_only then List.filter _ edges else edges).
  destruct (resolve_start_node start_arg nodes original_nodes) as [start_node|]; [|done].
  simpl. destruct (build_adjacency kept) as [out_adj in_adj].
  destruct (bfs_levels start_node depth out_adj in_adj direction) as [levels included].
  destruct (split_levels levels 20) as [[bands node_levels]|]; [|done]. simpl.
  intros [= <-]. simpl.
  assert (Forall (λ m, src m ∈ included ∧ dst m ∈ included ∧
                       ∃ e b, e ∈ edges ∧ m = set_bidirectional b e ∧
                              (enabled_only = true → status e = Enabled))
            (merge_bidirectional_edges
               (List.filter (λ e, bool_decide (src e ∈ included)
                                  && bool_decide (dst e ∈ included)) kept))) as Hall.
  { apply Forall_forall. intros m Hm.
    destruct (merge_entries _ m Hm) as (e & b & He & ->).
    apply list_elem_of_In, filter_In in He as [He Hin].
    apply andb_prop in Hin as [Hs%bool_decide_eq_true Hd%bool_decide_eq_true].
    split_and!; [done..|]. exists e, b. unfold kept in He.
    destruct enabled_only.
    - apply filter_In in He as [He Hst%bool_decide_eq_true].
      split_and!; [by apply list_elem_of_In|done..].
    - split_and!; [by apply list_elem_of_In|done..]. }
  split_and!; [exact Hall| |].
  - intros Honly. unfold dot_edges. apply omap_all_Some.
    eapply Forall_impl; [exact Hall|]. intros m (Hs & Hd & _).
    by apply render_edge_inside.
  - apply vis_edges_inv. eapply Forall_impl; [exact Hall|]. by intros m (Hs & Hd & _).
Qed.

Lemma run_edges_inside_witness :
  match run_pipeline (H:=sorted_order) scenario_text "0" 1 "out" true
          (mkDotConfig "TB" "status" false false true) with
  | Some r => length (vis_edges (run_edges r) (run_included r)) = length (run_edges r)
  | None => False
  end.
Proof.
  destruct (run_pipeline (H:=sorted_order) scenario_text "0" 1 "out" true
              (mkDotConfig "TB" "status" false false true)) as [r|] eqn:Hr.
  - apply (run_edges_inside (H:=sorted_order) scenario_text "0" 1 "out" true
             (mkDotConfig "TB" "status" false false true) r Hr).
  - vm_compute in Hr. discriminate.
Defined.

(** ** The rank section of [generate_dot] *)

Lemma dot_rank_lines_from_nonempty (lvl : nat) (levels : list (gset Z)) :
  Forall (λ L, L ≠ ∅) levels →
  dot_rank_lines_from lvl levels
  = imap (λ i L, "  { rank=same; /* level " +:+ pretty (lvl + i)%nat +:+ " */ "
                 +:+ join_space (pretty <$> sorted_ids L) +:+ "; }") levels.
Proof.
  intros Hne. revert lvl. induction Hne as [|L levels HL _ IH]; intros lvl; [done|].
  simpl. unfold rank_line. rewrite decide_False by done. rewrite Nat.add_0_r.
  f_equal. rewrite IH. apply imap_ext. intros i X _. simpl.
  by replace (S (lvl + i)) with (lvl + S i)%nat by lia.
Qed.

(** X21. For the bands of a positive cap the rank section has exactly one
    line per band, in order: the line of the band at position [i] is
    numbered [i] and lists the ids of that band in ascending order.  When no
    node lies in two of the levels given to the partitioner, [i] is also the
    index that [node_levels] gives to every node of that band, so each node
    is ranked on the line numbered with its own level. *)
Theorem dot_rank_lines_bands `{SetOrder} (levels bands : list (gset Z))
    (node_levels : gmap Z nat) (cap : Z) :
  0 < cap →
  split_levels levels cap = Some (bands, node_levels) →
  length (dot_rank_lines bands) = length bands ∧
  (∀ (i : nat) B, bands !! i = Some B →
     dot_rank_lines bands !! i
     = Some ("  { rank=same; /* level " +:+ pretty i +:+ " */ "
             +:+ join_space (pretty <$> sorted_ids B) +:+ "; }")) ∧
  ((∀ (i j : nat) L L' x,
      levels !! i = Some L → levels !! j = Some L' → x ∈ L → x ∈ L' → i = j) →
   ∀ (i : nat) B n, bands !! i = Some B → n ∈ B → node_levels !! n = Some i).
Proof.
  intros Hcap. rewrite split_levels_bands by done. intros [= <- <-].
  assert (Forall (λ L : gset Z, L ≠ ∅) (bands_of cap levels)) as Hne.
  { eapply Forall_impl; [by apply bands_of_Forall|]. by intros B [? _]. }
  unfold dot_rank_lines. rewrite dot_rank_lines_from_nonempty by done.
  split_and!.
  - by rewrite length_imap.
  - intros i B HB. by rewrite list_lookup_imap, HB.
  - intros Hdisj i B n HB Hn.
    eapply level_index_of_exact; [|exact HB|exact Hn].
    by apply bands_of_disjoint.
Qed.

Lemma dot_rank_lines_bands_witness :
  dot_rank_lines [ {[1; 3]}; {[4; 5]}; {[7]} ] !! 1%nat
  = Some ("  { rank=same; /* level " +:+ pretty 1%nat +:+ " */ "
          +:+ join_space (pretty <$> sorted_ids {[4; 5]}) +:+ "; }") ∧
  ({[1 := O; 3 := O; 4 := 1%nat; 5 := 1%nat; 7 := 2%nat]} : gmap Z nat) !! 5
  = Some 1%nat.
Proof.
  assert (split_levels (H:=sorted_order) [ {[3; 1; 4; 5]}; {[7]} ] 2
          = Some ([ {[1; 3]}; {[4; 5]}; {[7]} ],
                  {[1 := O; 3 := O; 4 := 1%nat; 5 := 1%nat; 7 := 2%nat]})) as Hsplit
    by (vm_compute; reflexivity).
  assert (∀ (i j : nat) (L L' : gset Z) (x : Z),
            [ ({[3; 1; 4; 5]} : gset Z); {[7]} ] !! i = Some L →
            [ ({[3; 1; 4; 5]} : gset Z); {[7]} ] !! j = Some L' →
            x ∈ L → x ∈ L' → i = j) as Hdisj.
  { intros [|[|i]] [|[|j]] L L' x; simpl; intros; simplify_eq; set_solver. }
  destruct (dot_rank_lines_bands (H:=sorted_order) _ _ _ 2 ltac:(lia) Hsplit)
    as (_ & Hline & Hlevel).
  split.
  - apply (Hline 1%nat {[4; 5]}). vm_compute. reflexivity.
  - apply (Hlevel Hdisj 1%nat {[4; 5]} 5); [vm_compute; reflexivity|set_solver].
Defined.

(** The premise on the levels is needed: when node 3 lies in two levels, the
    band [{3}] is written on the line numbered 1 while [node_levels] gives
    node 3 the index 2 of the last band holding it. *)
Lemma dot_rank_lines_overlap :
  ∃ bands node_levels,
    split_levels (H:=sorted_order) [ {[1; 2; 3]}; {[3; 4]} ] 2 = Some (bands, node_levels) ∧
    bands = [ {[1; 2]}; {[3]}; {[3; 4]} ] ∧
    dot_rank_lines bands !! 1%nat = Some "  { rank=same; /* level 1 */ 3; }" ∧
    node_levels !! 3 = Some 2%nat.
Proof.
  exists [ {[1; 2]}; {[3]}; {[3; 4]} ],
         {[1 := O; 2 := O; 3 := 2%nat; 4 := 2%nat]}.
  split_and!; vm_compute; reflexivity.
Qed.

(** ** A lone edge declaration *)

Lemma app_String (c : ascii) (s r : string) : String c s +:+ r = String c (s +:+ r).
Proof. done. Qed.

Lemma app_Empty (r : string) : EmptyString +:+ r = r.
Proof. done. Qed.

Lemma span_run (p : ascii → bool) (a rest : string) :
  all_chars p a = true →
  match rest with EmptyString => True | String c _ => p c = false end →
  span p (a +:+ rest) = (a, rest).
Proof.
  intros Ha Hrest. induction a as [|x a IH].
  - rewrite app_Empty. destruct rest as [|c r]; [done|]. simpl. by rewrite Hrest.
  - simpl in Ha. apply andb_prop in Ha as [Hx Ha].
    rewrite app_String. simpl. by rewrite Hx, IH.
Qed.

Lemma finditer_skip_all {M} (try : string → option (M * string)) (skip : nat) (s : string) :
  (String.length s ≤ skip)%nat → finditer try skip s = [].
Proof.
  revert skip. induction s as [|c s IH]; intros skip Hlen; [done|].
  simpl in *. destruct skip as [|k]; [lia|]. apply IH. lia.
Qed.

Lemma finditer_fail_prefix {M} (try : string → option (M * string)) (a rest : string) :
  (∀ a1 c a2, a = a1 +:+ String c a2 → try (String c a2 +:+ rest) = None) →
  finditer try O (a +:+ rest) = finditer try O rest.
Proof.
  induction a as [|x a IH]; intros Hfail; [done|].
  rewrite app_String. simpl. rewrite <- app_String, (Hfail EmptyString x a eq_refl).
  apply IH. intros a1 c a2 ->. by apply (Hfail (String x a1) c a2).
Qed.

Lemma all_chars_suffix (p : ascii → bool) (a1 a2 : string) :
  all_chars p (a1 +:+ a2) = true → all_chars p a2 = true.
Proof. rewrite all_chars_app. by intros [_ ?]%andb_prop. Qed.

Lemma length_app_string (a b : string) :
  String.length (a +:+ b) = (String.length a + String.length b)%nat.
Proof.
  induction a as [|x a IH]; [done|]. rewrite app_String. simpl. by rewrite IH.
Qed.

Lemma digit_first (b : string) :
  b ≠ EmptyString → all_chars is_digit b = true →
  ∃ c b', b = String c b' ∧ is_digit c = true ∧ is_space c = false.
Proof.
  intros Hne Hb. destruct b as [|c b']; [done|]. simpl in Hb.
  apply andb_prop in Hb as [Hc _]. exists c, b'. split_and!; [done..|].
  by apply negb_true_iff, is_digit_not_space.
Qed.

(** The node pattern matches the destination and the label. *)
Lemma match_node_label_part (b l : string) :
  b ≠ EmptyString → all_chars is_digit b = true →
  all_chars (λ c, bool_decide (c ≠ dquote)) l = true →
  match_node (b +:+ label_part l) = Some (b, l, EmptyString).
Proof.
  intros Hne Hb Hl. unfold match_node, label_part.
  rewrite (span_run is_digit b) by done.
  rewrite decide_False by done.
  rewrite !app_String, app_Empty. simpl.
  rewrite (span_run _ l) by done.
  done.
Qed.

(** The edge pattern matches the whole declaration. *)
Lemma match_edge_decl (a b l : string) :
  a ≠ EmptyString → all_chars is_digit a = true →
  b ≠ EmptyString → all_chars is_digit b = true →
  all_chars (λ c, bool_decide (c ≠ dquote)) l = true →
  match_edge (edge_decl a b l) = Some (a, b, l, EmptyString).
Proof.
  intros Hane Ha Hbne Hb Hl. unfold match_edge, edge_decl.
  rewrite (span_run is_digit a) by done.
  rewrite decide_False by done.
  destruct (digit_first b Hbne Hb) as (c & b' & Hbeq & Hc & Hsp).
  assert (span is_space (b +:+ label_part l) = (EmptyString, b +:+ label_part l)) as Hspan.
  { rewrite Hbeq, app_String. simpl. by rewrite Hsp. }
  rewrite !app_String, !app_Empty. simpl. rewrite Hspan. simpl.
  rewrite (span_run is_digit b) by done.
  rewrite decide_False by done.
  unfold label_part. rewrite !app_String, app_Empty. simpl.
  rewrite (span_run _ l) by done.
  done.
Qed.

Lemma finditer_match_all {M} (try : string → option (M * string)) (s : string) (m : M) :
  s ≠ EmptyString → try s = Some (m, EmptyString) → finditer try O s = [m].
Proof.
  intros Hne Htry. destruct s as [|c s]; [done|]. simpl. rewrite Htry. f_equal.
  apply finditer_skip_all. simpl. lia.
Qed.

(** The node pattern does not match inside the source id. *)
Lemma match_node_source (c : ascii) (a2 rest : string) :
  all_chars is_digit (String c a2) = true →
  match_node (String c a2 +:+ " -> " +:+ rest) = None.
Proof.
  intros Ha. unfold match_node.
  rewrite (span_run is_digit (String c a2)) by done.
  rewrite decide_False by done. by rewrite !app_String, !app_Empty.
Qed.

Lemma node_matches_edge_decl (a b l : string) :
  all_chars is_digit a = true →
  b ≠ EmptyString → all_chars is_digit b = true →
  all_chars (λ c, bool_decide (c ≠ dquote)) l = true →
  node_matches (edge_decl a b l) = [(b, l)].
Proof.
  intros Ha Hbne Hb Hl. unfold node_matches, edge_decl.
  rewrite finditer_fail_prefix.
  - rewrite !app_String, app_Empty. simpl.
    apply finditer_match_all.
    + destruct b; [done|]. by rewrite app_String.
    + by rewrite match_node_label_part.
  - intros a1 c a2 ->. apply all_chars_suffix in Ha.
    by rewrite match_node_source.
Qed.

Lemma edge_matches_edge_decl (a b l : string) :
  a ≠ EmptyString → all_chars is_digit a = true →
  b ≠ EmptyString → all_chars is_digit b = true →
  all_chars (λ c, bool_decide (c ≠ dquote)) l = true →
  edge_matches (edge_decl a b l) = [(a, b, l)].
Proof.
  intros Hane Ha Hbne Hb Hl. unfold edge_matches.
  apply finditer_match_all.
  - unfold edge_decl. destruct a; [done|]. by rewrite app_String.
  - by rewrite match_edge_decl.
Qed.

(** X22. A text that is one edge declaration with a label, and nothing
    else, gives one edge and also one node: the node pattern matches the
    destination id followed by the label, so the destination node is
    labelled with the (trimmed) label of the edge, while the source node
    gets no entry. *)
Theorem parse_lone_edge_declaration (a b l : string) :
  a ≠ EmptyString → all_chars is_digit a = true →
  b ≠ EmptyString → all_chars is_digit b = true →
  all_chars (λ c, bool_decide (c ≠ dquote)) l = true →
  parse_source_text (edge_decl a b l)
  = ([(digits_value 0 b, strip l)],
     [mkEdge (digits_value 0 a) (digits_value 0 b) (strip l)
             (extract_status (strip l)) None],
     [(digits_value 0 b, strip l)]).
Proof.
  intros Hane Ha Hbne Hb Hl. unfold parse_source_text.
  rewrite node_matches_edge_decl, edge_matches_edge_decl by done. done.
Qed.

Lemma parse_lone_edge_declaration_witness :
  parse_source_text (edge_decl "1" "2" "E")
  = ([(2, "E")], [mkEdge 1 2 "E" Enabled None], [(2, "E")]).
Proof.
  apply (parse_lone_edge_declaration "1" "2" "E"); (discriminate || (vm_compute; reflexivity)).
Defined.
